(** * backdoor-framework: the server and the client of [backdoor-framework.c]

    A shallow embedding of the firmware-like server: the global table
    [vars], the naming and printing of variables, the circuit-breaker
    policy, the interrupt routine, the command loop of
    [process_client_commands] and the accept loop of [server]; and of the
    command-line [client] that builds and writes a command.

    Conventions.
    - A [uint8_t] / [unsigned char] is a [byte] (Stdlib's 256-constructor
      type); [byte_val] is its integer promotion and [u8] the conversion of
      an integer to [uint8_t] (reduction modulo 256).
    - The array [vars] is a [list byte] of length 256, read with [var_get]
      and written with [var_set].
    - What the server writes to [stdout] (and the [unlink] of the socket
      path) is an explicit list of [event]s, one per [fputs]/[printf] call.
    - A client connection is the list of bytes the peer sends before it
      closes, each with a mark that tells whether a delivery ends after it:
      the bytes up to a mark are what a [read] can see at that point.  A
      [read] hands out at most the requested count, stops at the end of a
      delivery even when more bytes follow later, and gets nothing only
      when the stream is at its end (a failing [read] ends the stream).
      [whole bytes] is the stream [bytes] with no delivery ending inside
      it. *)

From Stdlib Require Import ZArith Lia String DecimalString Sorted.
From Stdlib Require Import Strings.Byte.
From stdpp Require Import base list.

Local Open Scope Z_scope.

(** ** Bytes *)

(** Integer promotion of a [uint8_t]. *)
Definition byte_val (b : byte) : Z := Z.of_N (Byte.to_N b).

(** Conversion of an integer to [uint8_t]. *)
Definition u8 (z : Z) : byte :=
  match Byte.of_N (Z.to_N (z mod 256)) with
  | Some b => b
  | None => x00
  end.

#[global] Instance byte_eq_decision : EqDecision byte := byte_eq_dec.

(** ** Enumerations *)

Definition CMD_NOP : Z := 0.
Definition CMD_EXIT : Z := 1.
Definition CMD_SET_VARIABLE : Z := 2.

Definition VAR_UNUSED : Z := 0.
Definition VAR_VOLTAGE : Z := 1.
Definition VAR_AMPERAGE : Z := 2.
Definition VAR_MIN_VOLTAGE : Z := 3.
Definition VAR_MAX_VOLTAGE : Z := 4.
Definition VAR_CIRCUIT_BREAKER : Z := 5.
Definition VAR_LAST : Z := 6.

(** ** The variable table *)

(** Initial contents of [static uint8_t vars[256]]: six initialisers, the
    remaining 250 elements are zero-initialised. *)
Definition vars : list byte :=
  [u8 0; u8 240; u8 0; u8 235; u8 245; u8 1] ++ replicate 250 (u8 0).

(** [vs[i]] as an rvalue. *)
Definition var_get (vs : list byte) (i : Z) : byte :=
  match vs !! Z.to_nat i with
  | Some b => b
  | None => x00
  end.

(** [vs[i] = v]. *)
Definition var_set (vs : list byte) (i : Z) (v : byte) : list byte :=
  <[Z.to_nat i := v]> vs.

(** ** Output *)

Inductive event : Type :=
  | OutCommandNop                                   (* "command: nop\n" *)
  | OutCommandExit                                  (* "command: exit\n" *)
  | SysUnlink                                       (* unlink(SERVER_ADDR) *)
  | OutCommandSet (name val : byte)                 (* "command: set variable[%u] = %u\n" *)
  | OutUnknownCommand (command : byte)              (* "unknown command: %u\n" *)
  | OutServerInterrupt                              (* "server interrupt\n" *)
  | OutBreakerTripped                               (* "*** PROTECTED: circuit breaker tripped\n" *)
  | OutVariables                                    (* "variables:\n" *)
  | OutVariable (i : Z) (name : option string) (value : byte).
                                                    (* "  %d: %-24s = %u\n" *)

(** ** [variable_name] *)

(** [sprintf(dflt, "var[%u]", (unsigned)name)]. *)
Definition sprintf_var (name : Z) : string :=
  ("var[" ++ NilEmpty.string_of_uint (N.to_uint (Z.to_N (name mod 2 ^ 32))) ++ "]")%string.

(** [NULL] is [None]. *)
Definition variable_name (name : Z) (use_default : bool) : option string :=
  if name =? VAR_UNUSED then Some "unused"%string
  else if name =? VAR_VOLTAGE then Some "voltage"%string
  else if name =? VAR_AMPERAGE then Some "amperage"%string
  else if name =? VAR_MIN_VOLTAGE then Some "min_voltage"%string
  else if name =? VAR_MAX_VOLTAGE then Some "max_voltage"%string
  else if name =? VAR_CIRCUIT_BREAKER then Some "circuit_breaker"%string
  else if negb use_default then None
  else Some (sprintf_var name).

(** ** [show_variables] *)

(** A pointer used as a condition: true unless [NULL]. *)
Definition non_null {A} (p : option A) : bool :=
  match p with Some _ => true | None => false end.

(** The body of the [for] loop at index [i]. *)
Definition show_variable (vs : list byte) (i : Z) : list event :=
  if non_null (variable_name i false) || negb (byte_val (var_get vs i) =? 0)
  then [OutVariable i (variable_name i true) (var_get vs i)]
  else [].

(** [for (; i < 256; ++i) ...], with [n] bounding the iterations left. *)
Fixpoint show_variables_loop (n : nat) (vs : list byte) (i : Z) : list event :=
  match n with
  | O => []
  | S n' =>
      if i <? 256 then show_variable vs i ++ show_variables_loop n' vs (i + 1)
      else []
  end.

Definition show_variables (vs : list byte) : list event :=
  OutVariables :: show_variables_loop 256 vs 0.

(** ** [trip_breaker_based_on_voltage] and [server_interrupt] *)

Definition trip_breaker_based_on_voltage (vs : list byte) : list byte * list event :=
  let trip :=
    negb (byte_val (var_get vs VAR_CIRCUIT_BREAKER) =? 0) &&
    ((byte_val (var_get vs VAR_VOLTAGE) <? byte_val (var_get vs VAR_MIN_VOLTAGE)) ||
     (byte_val (var_get vs VAR_VOLTAGE) >? byte_val (var_get vs VAR_MAX_VOLTAGE))) in
  if trip then (var_set vs VAR_CIRCUIT_BREAKER (u8 0), [OutBreakerTripped])
  else (vs, []).

Definition server_interrupt (vs : list byte) : list byte * list event :=
  let '(vs1, out) := trip_breaker_based_on_voltage vs in
  (vs1, OutServerInterrupt :: out ++ show_variables vs1).

(** ** The client connection *)

(** [read(client, buf, count)]: the bytes delivered and the rest of the
    stream.  The return value of the call is the length of the first
    component; it is 0 only at the end of the stream.  A byte marked [true]
    is the last one the call can see: the call returns with it, short of
    [count], and the bytes after it are left for the next call. *)
Fixpoint read (client : list (byte * bool)) (count : nat) {struct count}
  : list byte * list (byte * bool) :=
  match count with
  | O => ([], client)
  | S count' =>
      match client with
      | [] => ([], [])
      | (b, cut) :: rest =>
          if cut then ([b], rest)
          else let '(got, rest') := read rest count' in (b :: got, rest')
      end
  end.

(** The stream [bytes] with no delivery ending inside it. *)
Definition whole (bytes : list byte) : list (byte * bool) :=
  map (fun b => (b, false)) bytes.

(** The bytes delivered by a [read] overwrite the front of the buffer; the
    rest of the buffer keeps what it held. *)
Definition fill (buf got : list byte) : list byte :=
  got ++ drop (length got) buf.

(** ** [process_client_commands] *)

(** How the [switch] ends. *)
Inductive switch_end : Type :=
  | Break (client : list (byte * bool)) (* [break], with the rest of the stream *)
  | ExitProcess.                      (* [exit(0)] *)

(** The [switch (command)] statement; [client] is the stream after the
    command byte. *)
Definition switch_command (command : byte) (client : list (byte * bool))
    (vs : list byte) : switch_end * list byte * list event :=
  if byte_val command =? CMD_NOP then
    (Break client, vs, [OutCommandNop])
  else if byte_val command =? CMD_EXIT then
    (ExitProcess, vs, [OutCommandExit; SysUnlink])
  else if byte_val command =? CMD_SET_VARIABLE then
    let name_val := [u8 VAR_UNUSED; u8 0] in
    let '(got, client1) := read client 2 in
    let name_val := fill name_val got in
    (Break client1,
     var_set vs (byte_val (var_get name_val 0)) (var_get name_val 1),
     [OutCommandSet (var_get name_val 0) (var_get name_val 1)])
  else
    (Break client, vs, [OutUnknownCommand command]).

(** How one pass through the body of [while (1)] ends. *)
Inductive pass_end : Type :=
  | Continue (client : list (byte * bool)) (* back to the top of the loop *)
  | Return                            (* [return]: the read got nothing *)
  | Exit.                             (* [exit(0)] *)

Definition loop_body (client : list (byte * bool)) (vs : list byte)
  : pass_end * list byte * list event :=
  let command := u8 CMD_NOP in
  let '(got, client1) := read client 1 in
  if Z.of_nat (length got) <=? 0 then (Return, vs, [])
  else
    let command := var_get (fill [command] got) 0 in
    match switch_command command client1 vs with
    | (ExitProcess, vs1, out) => (Exit, vs1, out)
    | (Break client2, vs1, out) =>
        let '(vs2, out2) := server_interrupt vs1 in
        (Continue client2, vs2, out ++ out2)
    end.

(** How [process_client_commands] ends; [OutOfFuel] is the model's own, for
    a loop cut short by the iteration bound. *)
Inductive status : Type := Returned | Exited | OutOfFuel.

Fixpoint process_loop (fuel : nat) (client : list (byte * bool)) (vs : list byte)
  : status * list byte * list event :=
  match fuel with
  | O => (OutOfFuel, vs, [])
  | S fuel' =>
      match loop_body client vs with
      | (Return, vs1, out) => (Returned, vs1, out)
      | (Exit, vs1, out) => (Exited, vs1, out)
      | (Continue client1, vs1, out) =>
          let '(st, vs2, out2) := process_loop fuel' client1 vs1 in
          (st, vs2, out ++ out2)
      end
  end.

(** Every pass that continues consumes at least one byte, so one more pass
    than there are bytes is enough. *)
Definition process_client_commands (client : list (byte * bool)) (vs : list byte)
  : status * list byte * list event :=
  process_loop (S (length client)) client vs.

Definition final_status (r : status * list byte * list event) : status := r.1.1.
Definition final_vars (r : status * list byte * list event) : list byte := r.1.2.
Definition output (r : status * list byte * list event) : list event := r.2.

(** ** The command loop as a relation

    [session client vs st vs' out]: run on the stream [client] from the
    table [vs], [process_client_commands] ends as [st] with the table [vs']
    after writing [out].  One rule per way through the loop body. *)
Inductive session :
  list (byte * bool) -> list byte -> status -> list byte -> list event -> Prop :=
  | session_closed vs :
      session [] vs Returned vs []
  | session_nop cut client vs vs1 out st vs2 out2 :
      server_interrupt vs = (vs1, out) ->
      session client vs1 st vs2 out2 ->
      session ((x00, cut) :: client) vs st vs2 (OutCommandNop :: out ++ out2)
  | session_exit cut client vs :
      session ((x01, cut) :: client) vs Exited vs [OutCommandExit; SysUnlink]
  | session_set cut1 name val cut2 client vs vs1 out st vs2 out2 :
      server_interrupt (var_set vs (byte_val name) val) = (vs1, out) ->
      session client vs1 st vs2 out2 ->
      session ((x02, cut1) :: (name, false) :: (val, cut2) :: client) vs st vs2
              (OutCommandSet name val :: out ++ out2)
  | session_set_short cut1 name cut client vs vs1 out st vs2 out2 :
      cut = true \/ client = [] ->
      server_interrupt (var_set vs (byte_val name) x00) = (vs1, out) ->
      session client vs1 st vs2 out2 ->
      session ((x02, cut1) :: (name, cut) :: client) vs st vs2
              (OutCommandSet name x00 :: out ++ out2)
  | session_set_short0 cut1 vs vs1 out :
      server_interrupt (var_set vs 0 x00) = (vs1, out) ->
      session [(x02, cut1)] vs Returned vs1 (OutCommandSet x00 x00 :: out)
  | session_unknown command cut client vs vs1 out st vs2 out2 :
      2 < byte_val command ->
      server_interrupt vs = (vs1, out) ->
      session client vs1 st vs2 out2 ->
      session ((command, cut) :: client) vs st vs2
              (OutUnknownCommand command :: out ++ out2).

(** ** Vocabulary of the properties *)

(** A table has the 256 elements of the array. *)
Definition wf_vars (vs : list byte) : Prop := length vs = 256%nat.

Definition breaker_closed (vs : list byte) : Prop :=
  byte_val (var_get vs VAR_CIRCUIT_BREAKER) <> 0.

Definition voltage_out_of_range (vs : list byte) : Prop :=
  byte_val (var_get vs VAR_VOLTAGE) < byte_val (var_get vs VAR_MIN_VOLTAGE) \/
  byte_val (var_get vs VAR_VOLTAGE) > byte_val (var_get vs VAR_MAX_VOLTAGE).

(** The breaker is open or the voltage is within its bounds. *)
Definition breaker_safe (vs : list byte) : Prop :=
  byte_val (var_get vs VAR_CIRCUIT_BREAKER) = 0 \/
  byte_val (var_get vs VAR_MIN_VOLTAGE) <= byte_val (var_get vs VAR_VOLTAGE)
    <= byte_val (var_get vs VAR_MAX_VOLTAGE).

(** The tables the server can hold when a pass of the command loop has
    just run [server_interrupt]: the initial one, and the one left by a
    pass that continues, whatever stream the pass read from.  The table is
    global, so it carries over from one connection to the next. *)
Inductive reachable : list byte -> Prop :=
  | reachable_init : reachable vars
  | reachable_pass client vs client1 vs1 out :
      reachable vs ->
      loop_body client vs = (Continue client1, vs1, out) ->
      reachable vs1.

(** The events that report a command other than [exit]. *)
Definition applied_command (e : event) : bool :=
  match e with
  | OutCommandNop | OutCommandSet _ _ | OutUnknownCommand _ => true
  | _ => false
  end.

(** The event written on entry to [server_interrupt]. *)
Definition interrupt_entry (e : event) : bool :=
  match e with OutServerInterrupt => true | _ => false end.

(** The shape of what a session writes: each applied command directly
    followed by what one run of [server_interrupt] writes, and an [exit],
    if any, last. *)
Inductive paired : list event -> Prop :=
  | paired_end : paired []
  | paired_exit : paired [OutCommandExit; SysUnlink]
  | paired_command e vs rest :
      applied_command e = true ->
      paired rest ->
      paired (e :: (server_interrupt vs).2 ++ rest).



(** The value of the most recent [SetVariable] of [id] in [cmds], if any. *)
Fixpoint last_set (id : byte) (cmds : list (byte * byte)) : option byte :=
  match cmds with
  | [] => None
  | (i, v) :: cmds' =>
      match last_set id cmds' with
      | Some w => Some w
      | None => if Byte.eqb i id then Some v else None
      end
  end.


(** The display name of an identifier: the documented one for 0-5,
    otherwise synthesized from the number. *)
Definition display_name (i : Z) : string :=
  if i =? 0 then "unused"
  else if i =? 1 then "voltage"
  else if i =? 2 then "amperage"
  else if i =? 3 then "min_voltage"
  else if i =? 4 then "max_voltage"
  else if i =? 5 then "circuit_breaker"
  else ("var[" ++ NilEmpty.string_of_uint (N.to_uint (Z.to_N i)) ++ "]")%string.

(** The snapshot in the words of the specification: the identifiers among
    0..255 that are reserved or hold a non-zero value, in ascending order,
    each with its display name and current value. *)
Definition snapshot_report (vs : list byte) : list (Z * string * byte) :=
  map (fun i => (i, display_name i, var_get vs i))
      (filter (fun i => 0 <= i <= 5 \/ byte_val (var_get vs i) <> 0) (seqZ 0 256)).

Definition snapshot_event (line : Z * string * byte) : event :=
  OutVariable line.1.1 (Some line.1.2) line.2.

(** The initial value documented for each identifier. *)
Definition initial_default (id : byte) : Z :=
  if byte_val id =? VAR_VOLTAGE then 240
  else if byte_val id =? VAR_MIN_VOLTAGE then 235
  else if byte_val id =? VAR_MAX_VOLTAGE then 245
  else if byte_val id =? VAR_CIRCUIT_BREAKER then 1
  else 0.

(** The events [server_interrupt] writes after its entry line: the trip
    report and the lines of the snapshot. *)
Definition report_event (e : event) : bool :=
  match e with
  | OutBreakerTripped | OutVariables | OutVariable _ _ _ => true
  | _ => false
  end.

(** Number of events of a kind in an output. *)
Definition count (f : event -> bool) (out : list event) : nat :=
  length (List.filter f out).

(** ** [server]

    The accept loop, run over the connections [clients] in the order they
    are accepted: each is processed to its end before the next one, on the
    table the previous one left; an [exit(0)] ends everything. *)
Fixpoint server (clients : list (list (byte * bool))) (vs : list byte)
  : status * list byte * list event :=
  match clients with
  | [] => (Returned, vs, [])
  | client :: clients' =>
      match process_client_commands client vs with
      | (Exited, vs1, out) => (Exited, vs1, out)
      | (_, vs1, out) =>
          let '(st, vs2, out2) := server clients' vs1 in
          (st, vs2, out ++ out2)
      end
  end.

Arguments show_variables : simpl never.
Arguments server_interrupt : simpl never.
Arguments trip_breaker_based_on_voltage : simpl never.

(** ** [client]

    The client side: the command line is turned into at most
    [MAX_BYTES_IN_COMMAND] bytes and written to the server.  [argv] is the
    list of arguments, [argc] its length.  [strtoul] stands for the C
    library's [strtoul(s, NULL, 0)]; its result is converted to [uint8_t] on
    assignment.  [socket_ok] and [connect_ok] say whether the two calls
    succeed, and [command] is what the uninitialised array [command] holds
    on entry. *)

Definition MAX_BYTES_IN_COMMAND : Z := 3.

(** How [client] ends: one of the [exit(1)] paths, or the [write] of the
    command bytes. *)
Inductive client_end : Type :=
  | ClientUsage                       (* "usage: ..." ; exit(1) *)
  | ClientTooMany                     (* "too many arguments" ; exit(1) *)
  | ClientNoSocket                    (* perror("socket") ; exit(1) *)
  | ClientNoConnect                   (* "cannot connect to server ..." ; exit(1) *)
  | ClientWrite (buf : list byte).    (* write(server, command, command_size) *)

(** [argv[i]]. *)
Definition arg (argv : list string) (i : Z) : string :=
  match argv !! Z.to_nat i with
  | Some s => s
  | None => ""%string
  end.

Section Client.
Variable strtoul : string -> Z.

(** "Obtain command from command-line": the value stored in [command[0]]. *)
Definition client_command (a : string) : byte :=
  if String.eqb a "nop" then u8 CMD_NOP
  else if String.eqb a "exit" then u8 CMD_EXIT
  else if String.eqb a "set" then u8 CMD_SET_VARIABLE
  else u8 (strtoul a).

(** The body of the argument loop: the value stored in [command[i-1]]
    for the argument [a], given [command[0]]. *)
Definition client_argument (command0 : byte) (a : string) : byte :=
  if byte_val command0 =? CMD_SET_VARIABLE then
    if String.eqb a "voltage" then u8 VAR_VOLTAGE
    else if String.eqb a "amperage" then u8 VAR_AMPERAGE
    else if String.eqb a "min_voltage" then u8 VAR_MIN_VOLTAGE
    else if String.eqb a "max_voltage" then u8 VAR_MAX_VOLTAGE
    else if String.eqb a "circuit_breaker" then u8 VAR_CIRCUIT_BREAKER
    else u8 (strtoul a)
  else u8 (strtoul a).

(** [for (; i < argc; ++i) ...], with [n] bounding the iterations left. *)
Fixpoint client_arguments (n : nat) (argv : list string) (i : Z)
    (command : list byte) : list byte :=
  match n with
  | O => command
  | S n' =>
      if i <? Z.of_nat (length argv) then
        client_arguments n' argv (i + 1)
          (var_set command (i - 1)
             (client_argument (var_get command 0) (arg argv i)))
      else command
  end.

Definition client (socket_ok connect_ok : bool) (command : list byte)
    (argv : list string) : client_end :=
  let argc := Z.of_nat (length argv) in
  if argc <? 2 then ClientUsage
  else
    let command_size := argc - 1 in
    if command_size >? MAX_BYTES_IN_COMMAND then ClientTooMany
    else
      let command := var_set command 0 (client_command (arg argv 1)) in
      let command := client_arguments (length argv) argv 2 command in
      if negb socket_ok then ClientNoSocket
      else if negb connect_ok then ClientNoConnect
      else ClientWrite (take (Z.to_nat command_size) command).
End Client.

(** A decimal reader: the value of the leading decimal digits of a string,
    0 if there are none.  On a decimal numeral without a leading zero this
    is what [strtoul(s, NULL, 0)] returns. *)
Definition digit_of (c : Ascii.ascii) : option Z :=
  let n := Z.of_nat (Ascii.nat_of_ascii c) in
  if (48 <=? n) && (n <=? 57) then Some (n - 48) else None.

Fixpoint decimal_prefix (s : string) (acc : Z) : Z :=
  match s with
  | EmptyString => acc
  | String c s' =>
      match digit_of c with
      | Some d => decimal_prefix s' (acc * 10 + d)
      | None => acc
      end
  end.

Definition strtoul_decimal (s : string) : Z := decimal_prefix s 0.

(** ** Commands on the wire *)

(** The commands other than [exit], as the server tells them apart. *)
Inductive command : Type :=
  | Nop
  | SetVariable (name val : byte)
  | Unknown (code : byte).

(** An unknown command has a code above [CMD_SET_VARIABLE]. *)
Definition valid_command (c : command) : Prop :=
  match c with
  | Unknown code => 2 < byte_val code
  | _ => True
  end.

(** The bytes of a command with all its arguments. *)
Definition command_bytes (c : command) : list byte :=
  match c with
  | Nop => [u8 CMD_NOP]
  | SetVariable name val => [u8 CMD_SET_VARIABLE; name; val]
  | Unknown code => [code]
  end.

Definition command_stream (cmds : list command) : list byte :=
  concat (map command_bytes cmds).

(** What the server writes on receiving the command. *)
Definition command_report (c : command) : event :=
  match c with
  | Nop => OutCommandNop
  | SetVariable name val => OutCommandSet name val
  | Unknown code => OutUnknownCommand code
  end.

(** The commands a stream delivers, when each is delivered with all its
    arguments: no delivery ends between the identifier and the value of a
    [SetVariable]. *)
Inductive delivers : list (byte * bool) -> list command -> Prop :=
  | delivers_nil : delivers [] []
  | delivers_nop cut client cmds :
      delivers client cmds ->
      delivers ((x00, cut) :: client) (Nop :: cmds)
  | delivers_set cut1 name val cut2 client cmds :
      delivers client cmds ->
      delivers ((x02, cut1) :: (name, false) :: (val, cut2) :: client)
               (SetVariable name val :: cmds)
  | delivers_unknown code cut client cmds :
      2 < byte_val code ->
      delivers client cmds ->
      delivers ((code, cut) :: client) (Unknown code :: cmds).

(** The byte stream as the reads frame it: where a delivery ends right
    after the identifier of a [SetVariable], the value the server takes, 0,
    is written out; the bytes after it start new commands. *)
Fixpoint zero_fill (client : list (byte * bool)) : list byte :=
  match client with
  | [] => []
  | (command, _) :: rest =>
      if byte_val command =? CMD_SET_VARIABLE then
        match rest with
        | [] => [command]
        | (name, true) :: rest' => command :: name :: x00 :: zero_fill rest'
        | [(name, false)] => [command; name]
        | (name, false) :: (val, _) :: rest' =>
            command :: name :: val :: zero_fill rest'
        end
      else command :: zero_fill rest
  end.


(** The variable names the client accepts, with the identifiers it sends
    for them. *)
Definition client_variable_names : list (string * Z) :=
  [("voltage"%string, VAR_VOLTAGE); ("amperage"%string, VAR_AMPERAGE);
   ("min_voltage"%string, VAR_MIN_VOLTAGE); ("max_voltage"%string, VAR_MAX_VOLTAGE);
   ("circuit_breaker"%string, VAR_CIRCUIT_BREAKER)].

(** The command names the client accepts. *)
Definition client_command_names : list string :=
  ["nop"%string; "exit"%string; "set"%string].

(** * Properties *)

(** ** Bytes and table accesses *)

Lemma byte_val_range (b : byte) : 0 <= byte_val b < 256.
Proof.
  unfold byte_val. pose proof (Byte.to_N_bounded b). lia.
Qed.

Lemma byte_val_inj (a b : byte) : byte_val a = byte_val b -> a = b.
Proof.
  unfold byte_val. intros H. apply N2Z.inj in H.
  pose proof (Byte.of_to_N a) as Ha. rewrite H, Byte.of_to_N in Ha.
  congruence.
Qed.

Lemma byte_val_zero (b : byte) : byte_val b = 0 <-> b = x00.
Proof.
  split; [intros H; apply byte_val_inj; exact H | intros ->; reflexivity].
Qed.

Lemma byte_index_lt (b : byte) : (Z.to_nat (byte_val b) < 256)%nat.
Proof. pose proof (byte_val_range b). lia. Qed.

Lemma length_var_set vs i v : length (var_set vs i v) = length vs.
Proof. apply length_insert. Qed.

Lemma wf_var_set vs i v : wf_vars vs -> wf_vars (var_set vs i v).
Proof. unfold wf_vars. now rewrite length_var_set. Qed.

Lemma var_get_set_eq vs i v :
  (Z.to_nat i < length vs)%nat -> var_get (var_set vs i v) i = v.
Proof.
  intros H. unfold var_get, var_set.
  now rewrite list_lookup_insert_eq.
Qed.

Lemma var_get_set_ne vs i j v :
  Z.to_nat i <> Z.to_nat j -> var_get (var_set vs i v) j = var_get vs j.
Proof.
  intros H. unfold var_get, var_set.
  now rewrite list_lookup_insert_ne.
Qed.

Lemma var_get_set_zero vs i j :
  var_get vs j = x00 -> var_get (var_set vs i x00) j = x00.
Proof.
  intros H. destruct (decide (Z.to_nat i = Z.to_nat j)) as [E|E].
  - unfold var_get, var_set in *. rewrite E.
    destruct (decide (Z.to_nat j < length vs)%nat) as [L|L].
    + now rewrite list_lookup_insert_eq.
    + rewrite list_insert_ge by lia. exact H.
  - now rewrite var_get_set_ne.
Qed.

Lemma wf_vars_init : wf_vars vars.
Proof. reflexivity. Qed.

(** ** The policy *)

Lemma trip_spec vs :
  (breaker_closed vs /\ voltage_out_of_range vs ->
   trip_breaker_based_on_voltage vs
   = (var_set vs VAR_CIRCUIT_BREAKER x00, [OutBreakerTripped])) /\
  (~ (breaker_closed vs /\ voltage_out_of_range vs) ->
   trip_breaker_based_on_voltage vs = (vs, [])).
Proof.
  unfold trip_breaker_based_on_voltage, breaker_closed, voltage_out_of_range.
  destruct (byte_val (var_get vs VAR_CIRCUIT_BREAKER) =? 0) eqn:B;
    destruct (byte_val (var_get vs VAR_VOLTAGE) <? byte_val (var_get vs VAR_MIN_VOLTAGE)) eqn:L;
    destruct (byte_val (var_get vs VAR_VOLTAGE) >? byte_val (var_get vs VAR_MAX_VOLTAGE)) eqn:G;
    cbn [negb andb orb];
    split; intros H; try reflexivity; exfalso; lia.
Qed.

Lemma trip_wf vs : wf_vars vs -> wf_vars (trip_breaker_based_on_voltage vs).1.
Proof.
  intros H. unfold trip_breaker_based_on_voltage.
  match goal with |- context [if ?c then _ else _] => destruct c end; cbn [fst].
  - now apply wf_var_set.
  - exact H.
Qed.

Lemma trip_other vs i :
  Z.to_nat i <> 5%nat ->
  var_get (trip_breaker_based_on_voltage vs).1 i = var_get vs i.
Proof.
  intros H. unfold trip_breaker_based_on_voltage.
  match goal with |- context [if ?c then _ else _] => destruct c end; cbn [fst].
  - apply var_get_set_ne. unfold VAR_CIRCUIT_BREAKER. lia.
  - reflexivity.
Qed.

Lemma trip_safe vs : wf_vars vs -> breaker_safe (trip_breaker_based_on_voltage vs).1.
Proof.
  intros W. destruct (trip_spec vs) as [Ht Hn].
  destruct (decide (byte_val (var_get vs VAR_CIRCUIT_BREAKER) = 0)) as [B|B].
  - rewrite Hn by (unfold breaker_closed; tauto). now left.
  - destruct (decide (byte_val (var_get vs VAR_MIN_VOLTAGE) <= byte_val (var_get vs VAR_VOLTAGE)
                      <= byte_val (var_get vs VAR_MAX_VOLTAGE))) as [R|R].
    + rewrite Hn by (unfold voltage_out_of_range; lia). now right.
    + rewrite Ht by (unfold breaker_closed, voltage_out_of_range; lia).
      left. cbn [fst]. rewrite var_get_set_eq; [reflexivity|].
      unfold wf_vars in W. rewrite W. unfold VAR_CIRCUIT_BREAKER. lia.
Qed.

Lemma trip_idle vs : breaker_safe vs -> trip_breaker_based_on_voltage vs = (vs, []).
Proof.
  intros H. apply (trip_spec vs).
  unfold breaker_safe, breaker_closed, voltage_out_of_range in *. lia.
Qed.

Lemma server_interrupt_unfold vs :
  server_interrupt vs
  = ((trip_breaker_based_on_voltage vs).1,
     OutServerInterrupt :: (trip_breaker_based_on_voltage vs).2
       ++ show_variables (trip_breaker_based_on_voltage vs).1).
Proof.
  unfold server_interrupt. now destruct (trip_breaker_based_on_voltage vs).
Qed.

Lemma server_interrupt_idle vs :
  breaker_safe vs ->
  server_interrupt vs = (vs, OutServerInterrupt :: show_variables vs).
Proof.
  intros H. rewrite server_interrupt_unfold, (trip_idle vs H). reflexivity.
Qed.

Lemma server_interrupt_wf vs : wf_vars vs -> wf_vars (server_interrupt vs).1.
Proof. rewrite server_interrupt_unfold. apply trip_wf. Qed.

Lemma server_interrupt_safe vs : wf_vars vs -> breaker_safe (server_interrupt vs).1.
Proof. rewrite server_interrupt_unfold. apply trip_safe. Qed.

Lemma server_interrupt_other vs i :
  Z.to_nat i <> 5%nat -> var_get (server_interrupt vs).1 i = var_get vs i.
Proof. rewrite server_interrupt_unfold. apply trip_other. Qed.

(** C1 — the policy trips the breaker iff the breaker is closed and the
    voltage is out of range: in that case the only effect is
    [circuit_breaker = 0] and the trip is reported; in every other state the
    table is returned as it was and nothing is reported.  Hence the table
    changes exactly in the states of the first kind. *)
Theorem C1_trip_iff (vs : list byte) :
  wf_vars vs ->
  (breaker_closed vs /\ voltage_out_of_range vs ->
     trip_breaker_based_on_voltage vs
     = (var_set vs VAR_CIRCUIT_BREAKER (u8 0), [OutBreakerTripped]) /\
     byte_val (var_get (trip_breaker_based_on_voltage vs).1 VAR_CIRCUIT_BREAKER) = 0) /\
  (~ (breaker_closed vs /\ voltage_out_of_range vs) ->
     trip_breaker_based_on_voltage vs = (vs, [])) /\
  ((trip_breaker_based_on_voltage vs).1 <> vs <->
     breaker_closed vs /\ voltage_out_of_range vs).
Proof.
  intros W. destruct (trip_spec vs) as [Ht Hn].
  assert (Hset : var_get (var_set vs VAR_CIRCUIT_BREAKER x00) VAR_CIRCUIT_BREAKER = x00).
  { apply var_get_set_eq. unfold wf_vars in W. rewrite W.
    unfold VAR_CIRCUIT_BREAKER. lia. }
  split; [|split].
  - intros H. rewrite (Ht H). split; [reflexivity|].
    cbn [fst]. now rewrite Hset.
  - exact Hn.
  - split.
    + intros Hne.
      destruct (decide (byte_val (var_get vs VAR_CIRCUIT_BREAKER) = 0)) as [B|B].
      { exfalso. apply Hne. rewrite Hn; [reflexivity|]. unfold breaker_closed. tauto. }
      destruct (decide (byte_val (var_get vs VAR_MIN_VOLTAGE)
                          <= byte_val (var_get vs VAR_VOLTAGE)
                          <= byte_val (var_get vs VAR_MAX_VOLTAGE))) as [R|R].
      { exfalso. apply Hne. rewrite Hn; [reflexivity|].
        unfold voltage_out_of_range. lia. }
      unfold breaker_closed, voltage_out_of_range. lia.
    + intros H Heq. rewrite (Ht H) in Heq. cbn [fst] in Heq.
      rewrite Heq in Hset. destruct H as [B _]. apply B.
      now rewrite Hset.
Qed.

Lemma C1_trip_iff_witness :
  trip_breaker_based_on_voltage (var_set vars VAR_VOLTAGE (u8 200))
  = (var_set (var_set vars VAR_VOLTAGE (u8 200)) VAR_CIRCUIT_BREAKER (u8 0),
     [OutBreakerTripped]).
Proof.
  destruct (C1_trip_iff (var_set vars VAR_VOLTAGE (u8 200))) as (H & _ & _).
  - reflexivity.
  - apply H. split.
    + unfold breaker_closed. vm_compute. discriminate.
    + left. vm_compute. reflexivity.
Defined.

(** ** One pass of the command loop *)

Lemma loop_body_nil vs : loop_body [] vs = (Return, vs, []).
Proof. reflexivity. Qed.

Lemma read_one command cut client :
  read ((command, cut) :: client) 1 = ([command], client).
Proof. now destruct cut. Qed.

Lemma loop_body_cons command cut client vs :
  loop_body ((command, cut) :: client) vs
  = match switch_command command client vs with
    | (ExitProcess, vs1, out) => (Exit, vs1, out)
    | (Break client2, vs1, out) =>
        ((Continue client2, (server_interrupt vs1).1), out ++ (server_interrupt vs1).2)
    end.
Proof.
  unfold loop_body. rewrite read_one.
  change (Z.of_nat (length [command]) <=? 0) with false. cbv iota.
  change (var_get (fill [u8 CMD_NOP] [command]) 0) with command.
  destruct (switch_command command client vs) as [[[c|] vs1] out]; [|reflexivity].
  now destruct (server_interrupt vs1).
Qed.

Lemma switch_nop client vs :
  switch_command x00 client vs = (Break client, vs, [OutCommandNop]).
Proof. reflexivity. Qed.

Lemma switch_exit client vs :
  switch_command x01 client vs = (ExitProcess, vs, [OutCommandExit; SysUnlink]).
Proof. reflexivity. Qed.

Lemma switch_set name val cut client vs :
  switch_command x02 ((name, false) :: (val, cut) :: client) vs
  = (Break client, var_set vs (byte_val name) val, [OutCommandSet name val]).
Proof. now destruct cut. Qed.

(** The read of the arguments stops after the identifier when a delivery
    ends there, although more bytes follow. *)
Lemma switch_set_cut name client vs :
  switch_command x02 ((name, true) :: client) vs
  = (Break client, var_set vs (byte_val name) x00, [OutCommandSet name x00]).
Proof. reflexivity. Qed.

Lemma switch_set_short1 name cut vs :
  switch_command x02 [(name, cut)] vs
  = (Break [], var_set vs (byte_val name) x00, [OutCommandSet name x00]).
Proof. now destruct cut. Qed.

Lemma switch_set_short name cut client vs :
  cut = true \/ client = [] ->
  switch_command x02 ((name, cut) :: client) vs
  = (Break client, var_set vs (byte_val name) x00, [OutCommandSet name x00]).
Proof.
  intros [-> | ->]; [apply switch_set_cut | apply switch_set_short1].
Qed.

Lemma switch_set_short0 vs :
  switch_command x02 [] vs
  = (Break [], var_set vs 0 x00, [OutCommandSet x00 x00]).
Proof. reflexivity. Qed.

Lemma switch_unknown command client vs :
  2 < byte_val command ->
  switch_command command client vs = (Break client, vs, [OutUnknownCommand command]).
Proof.
  intros H. unfold switch_command, CMD_NOP, CMD_EXIT, CMD_SET_VARIABLE.
  destruct (Z.eqb_spec (byte_val command) 0); [lia|].
  destruct (Z.eqb_spec (byte_val command) 1); [lia|].
  destruct (Z.eqb_spec (byte_val command) 2); [lia|].
  reflexivity.
Qed.

(** The command byte decides the branch: 0, 1, 2, or anything above. *)
Lemma command_cases (command : byte) :
  command = x00 \/ command = x01 \/ command = x02 \/ 2 < byte_val command.
Proof.
  pose proof (byte_val_range command).
  destruct (decide (byte_val command = 0)) as [E|?];
    [left; apply byte_val_inj; exact E|].
  destruct (decide (byte_val command = 1)) as [E|?];
    [right; left; apply byte_val_inj; exact E|].
  destruct (decide (byte_val command = 2)) as [E|?];
    [right; right; left; apply byte_val_inj; exact E|].
  right; right; right. lia.
Qed.

(** The ways the arguments of a [SetVariable] can arrive: none, the
    identifier alone (the stream or the delivery ends after it), or both. *)
Lemma set_arguments_cases (client : list (byte * bool)) :
  client = [] \/
  (exists name cut rest, client = (name, cut) :: rest /\ (cut = true \/ rest = [])) \/
  (exists name val cut rest, client = (name, false) :: (val, cut) :: rest).
Proof.
  destruct client as [|[name [|]] [|[val cut] rest]].
  - now left.
  - right; left. exists name, true, []. split; [reflexivity | now left].
  - right; left. exists name, true, ((val, cut) :: rest). split; [reflexivity | now left].
  - right; left. exists name, false, []. split; [reflexivity | now right].
  - right; right. now exists name, val, cut, rest.
Qed.

(** The arguments of a [SetVariable] are the next two bytes of the stream,
    each replaced by 0 when the read does not deliver it. *)
Lemma switch_set_any client vs :
  exists name val client1,
    switch_command x02 client vs
    = (Break client1, var_set vs (byte_val name) val, [OutCommandSet name val]) /\
    (length client1 <= length client)%nat.
Proof.
  destruct (set_arguments_cases client)
    as [->|[(name & cut & rest & -> & H)|(name & val & cut & rest & ->)]].
  - exists x00, x00, []. split; [reflexivity | cbn; lia].
  - exists name, x00, rest. split; [now apply switch_set_short | cbn; lia].
  - exists name, val, rest. split; [apply switch_set | cbn; lia].
Qed.

Lemma switch_break_shorter command client vs client1 vs1 out :
  switch_command command client vs = (Break client1, vs1, out) ->
  (length client1 <= length client)%nat.
Proof.
  destruct (command_cases command) as [->|[->|[->|H]]].
  - rewrite switch_nop. intros [= <- _ _]. lia.
  - rewrite switch_exit. discriminate.
  - destruct (switch_set_any client vs) as (n & v & c1 & E & L).
    rewrite E. intros [= <- _ _]. exact L.
  - rewrite (switch_unknown _ _ _ H). intros [= <- _ _]. lia.
Qed.

Lemma loop_body_continue_shorter client vs client1 vs1 out :
  loop_body client vs = (Continue client1, vs1, out) ->
  (length client1 < length client)%nat.
Proof.
  destruct client as [|[command cut] client]; [discriminate|].
  rewrite loop_body_cons.
  destruct (switch_command command client vs) as [[[c|] vs2] out2] eqn:E;
    [|discriminate].
  intros [= <- _ _]. apply switch_break_shorter in E. cbn. lia.
Qed.

(** ** Enough fuel *)

Lemma process_loop_fuel fuel1 fuel2 client vs :
  (length client < fuel1)%nat -> (length client < fuel2)%nat ->
  process_loop fuel1 client vs = process_loop fuel2 client vs.
Proof.
  revert fuel2 client vs.
  induction fuel1 as [|fuel1 IH]; intros [|fuel2] client vs H1 H2; try lia.
  cbn [process_loop].
  destruct (loop_body client vs) as [[[client1| |] vs1] out] eqn:E; try reflexivity.
  apply loop_body_continue_shorter in E.
  rewrite (IH fuel2 client1 vs1) by lia. reflexivity.
Qed.

Lemma process_client_commands_unfold client vs :
  process_client_commands client vs
  = match loop_body client vs with
    | (Return, vs1, out) => (Returned, vs1, out)
    | (Exit, vs1, out) => (Exited, vs1, out)
    | (Continue client1, vs1, out) =>
        let '(st, vs2, out2) := process_client_commands client1 vs1 in
        (st, vs2, out ++ out2)
    end.
Proof.
  unfold process_client_commands at 1. cbn [process_loop].
  destruct (loop_body client vs) as [[[client1| |] vs1] out] eqn:E; try reflexivity.
  apply loop_body_continue_shorter in E.
  unfold process_client_commands.
  rewrite (process_loop_fuel (length client) (S (length client1))) by lia.
  reflexivity.
Qed.

Lemma process_nil vs : process_client_commands [] vs = (Returned, vs, []).
Proof. reflexivity. Qed.

Lemma process_cons command cut client vs :
  process_client_commands ((command, cut) :: client) vs
  = match switch_command command client vs with
    | (ExitProcess, vs1, out) => (Exited, vs1, out)
    | (Break client2, vs1, out) =>
        let '(st, vs2, out2) :=
          process_client_commands client2 (server_interrupt vs1).1 in
        (st, vs2, (out ++ (server_interrupt vs1).2) ++ out2)
    end.
Proof.
  rewrite process_client_commands_unfold, loop_body_cons.
  now destruct (switch_command command client vs) as [[[c|] vs1] out].
Qed.

(** ** The relation and the function agree *)

Lemma session_sound client vs st vs' out :
  session client vs st vs' out ->
  process_client_commands client vs = (st, vs', out).
Proof.
  induction 1 as
    [ vs
    | cut client vs vs1 out st vs2 out2 Hi _ IH
    | cut client vs
    | cut1 name val cut2 client vs vs1 out st vs2 out2 Hi _ IH
    | cut1 name cut client vs vs1 out st vs2 out2 Hs Hi _ IH
    | cut1 vs vs1 out Hi
    | command cut client vs vs1 out st vs2 out2 Hc Hi _ IH ].
  - reflexivity.
  - rewrite process_cons, switch_nop, Hi. cbn [fst snd]. now rewrite IH.
  - now rewrite process_cons, switch_exit.
  - rewrite process_cons, switch_set, Hi. cbn [fst snd]. now rewrite IH.
  - rewrite process_cons, (switch_set_short _ _ _ _ Hs), Hi. cbn [fst snd].
    now rewrite IH.
  - rewrite process_cons, switch_set_short0, Hi. cbn [fst snd].
    rewrite process_nil. now rewrite app_nil_r.
  - rewrite process_cons, (switch_unknown _ _ _ Hc), Hi. cbn [fst snd].
    now rewrite IH.
Qed.

Lemma session_total_aux n : forall client vs,
  (length client < n)%nat ->
  exists st vs' out, session client vs st vs' out /\ st <> OutOfFuel.
Proof.
  induction n as [|n IH]; intros client vs L; [lia|].
  destruct client as [|[command cut0] client].
  { exists Returned, vs, []. split; [constructor | discriminate]. }
  cbn [length] in L.
  destruct (command_cases command) as [->|[->|[->|H]]].
  - destruct (server_interrupt vs) as [vs1 out] eqn:Hi.
    destruct (IH client vs1) as (st & vs2 & out2 & Hs & Hst); [lia|].
    exists st, vs2, (OutCommandNop :: out ++ out2).
    split; [eapply session_nop; eauto | exact Hst].
  - exists Exited, vs, [OutCommandExit; SysUnlink].
    split; [constructor | discriminate].
  - destruct (set_arguments_cases client)
      as [->|[(name & cut & rest & -> & Hc)|(name & val & cut & rest & ->)]].
    + destruct (server_interrupt (var_set vs 0 x00)) as [vs1 out] eqn:Hi.
      exists Returned, vs1, (OutCommandSet x00 x00 :: out).
      split; [now constructor | discriminate].
    + destruct (server_interrupt (var_set vs (byte_val name) x00)) as [vs1 out] eqn:Hi.
      cbn [length] in L.
      destruct (IH rest vs1) as (st & vs2 & out2 & Hs & Hst); [lia|].
      exists st, vs2, (OutCommandSet name x00 :: out ++ out2).
      split; [eapply session_set_short; eauto | exact Hst].
    + destruct (server_interrupt (var_set vs (byte_val name) val)) as [vs1 out] eqn:Hi.
      cbn [length] in L.
      destruct (IH rest vs1) as (st & vs2 & out2 & Hs & Hst); [lia|].
      exists st, vs2, (OutCommandSet name val :: out ++ out2).
      split; [eapply session_set; eauto | exact Hst].
  - destruct (server_interrupt vs) as [vs1 out] eqn:Hi.
    destruct (IH client vs1) as (st & vs2 & out2 & Hs & Hst); [lia|].
    exists st, vs2, (OutUnknownCommand command :: out ++ out2).
    split; [eapply session_unknown; eauto | exact Hst].
Qed.

Lemma session_process client vs :
  session client vs
    (final_status (process_client_commands client vs))
    (final_vars (process_client_commands client vs))
    (output (process_client_commands client vs)) /\
  final_status (process_client_commands client vs) <> OutOfFuel.
Proof.
  destruct (session_total_aux (S (length client)) client vs) as (st & vs' & out & Hs & Hst);
    [lia|].
  rewrite (session_sound _ _ _ _ _ Hs). split; assumption.
Qed.

(** ** Reads that stop short *)

Lemma whole_cons b bytes : whole (b :: bytes) = (b, false) :: whole bytes.
Proof. reflexivity. Qed.

Lemma whole_app bytes1 bytes2 : whole (bytes1 ++ bytes2) = whole bytes1 ++ whole bytes2.
Proof. unfold whole. apply map_app. Qed.

Lemma session_zero_fill client vs st vs' out :
  session client vs st vs' out ->
  session (whole (zero_fill client)) vs st vs' out.
Proof.
  induction 1 as
    [ vs
    | cut client vs vs1 out st vs2 out2 Hi _ IH
    | cut client vs
    | cut1 name val cut2 client vs vs1 out st vs2 out2 Hi _ IH
    | cut1 name cut client vs vs1 out st vs2 out2 Hs Hi _ IH
    | cut1 vs vs1 out Hi
    | command cut client vs vs1 out st vs2 out2 Hc Hi _ IH ].
  - constructor.
  - change (zero_fill ((x00, cut) :: client)) with (x00 :: zero_fill client).
    rewrite whole_cons. eapply session_nop; eauto.
  - change (zero_fill ((x01, cut) :: client)) with (x01 :: zero_fill client).
    rewrite whole_cons. constructor.
  - change (zero_fill ((x02, cut1) :: (name, false) :: (val, cut2) :: client))
      with (x02 :: name :: val :: zero_fill client).
    rewrite !whole_cons. eapply session_set; eauto.
  - destruct cut.
    + change (zero_fill ((x02, cut1) :: (name, true) :: client))
        with (x02 :: name :: x00 :: zero_fill client).
      rewrite !whole_cons. eapply session_set; eauto.
    + destruct Hs as [Hs| ->]; [discriminate|].
      change (zero_fill [(x02, cut1); (name, false)]) with [x02; name].
      eapply session_set_short; eauto.
  - now constructor.
  - assert (E : zero_fill ((command, cut) :: client) = command :: zero_fill client).
    { cbn [zero_fill]. unfold CMD_SET_VARIABLE.
      destruct (Z.eqb_spec (byte_val command) 2); [lia | reflexivity]. }
    rewrite E, whole_cons. eapply session_unknown; eauto.
Qed.

Lemma process_zero_fill client vs :
  process_client_commands client vs
  = process_client_commands (whole (zero_fill client)) vs.
Proof.
  destruct (session_process client vs) as [S _].
  rewrite (session_sound _ _ _ _ _ (session_zero_fill _ _ _ _ _ S)).
  now destruct (process_client_commands client vs) as [[st vs'] out].
Qed.

Lemma zero_fill_unknown command cut client :
  2 < byte_val command ->
  zero_fill ((command, cut) :: client) = command :: zero_fill client.
Proof.
  intros H. cbn [zero_fill]. unfold CMD_SET_VARIABLE.
  destruct (Z.eqb_spec (byte_val command) 2); [lia | reflexivity].
Qed.

(** A stream that delivers commands whole is framed as it stands. *)
Lemma delivers_zero_fill client cmds :
  delivers client cmds -> zero_fill client = command_stream cmds.
Proof.
  induction 1 as
    [ | cut client cmds _ IH
      | cut1 name val cut2 client cmds _ IH
      | code cut client cmds Hc _ IH ].
  - reflexivity.
  - change (zero_fill ((x00, cut) :: client)) with (x00 :: zero_fill client).
    now rewrite IH.
  - change (zero_fill ((x02, cut1) :: (name, false) :: (val, cut2) :: client))
      with (x02 :: name :: val :: zero_fill client).
    now rewrite IH.
  - rewrite (zero_fill_unknown _ _ _ Hc), IH. reflexivity.
Qed.

(** C10 (as the code has it) — the outcome of a session is a function of
    the starting table and of the bytes as the reads frame them, not of the
    bytes alone: a session runs exactly as it would on its zero-filled
    stream delivered whole, so two sessions whose zero-filled streams agree
    end with the same status, the same table and the same events; in
    particular two deliveries of the same commands, each with its arguments
    in one delivery, do.  Every session ends, by the peer closing or by
    exit. *)
Theorem C10_deterministic (client1 client2 : list (byte * bool)) (vs : list byte) :
  zero_fill client1 = zero_fill client2 ->
  process_client_commands client1 vs = process_client_commands client2 vs /\
  process_client_commands client1 vs
  = process_client_commands (whole (zero_fill client1)) vs /\
  (forall c1 c2 cmds, delivers c1 cmds -> delivers c2 cmds ->
     process_client_commands c1 vs = process_client_commands c2 vs) /\
  final_status (process_client_commands client1 vs) <> OutOfFuel.
Proof.
  intros E. split; [|split; [|split]].
  - rewrite (process_zero_fill client1), (process_zero_fill client2), E. reflexivity.
  - apply process_zero_fill.
  - intros c1 c2 cmds D1 D2.
    rewrite (process_zero_fill c1), (process_zero_fill c2).
    now rewrite (delivers_zero_fill _ _ D1), (delivers_zero_fill _ _ D2).
  - apply session_process.
Qed.

Lemma C10_deterministic_witness :
  process_client_commands [(x02, false); (x05, true); (x07, false)] vars
  = process_client_commands (whole [x02; x05; x00; x07]) vars.
Proof.
  apply (C10_deterministic [(x02, false); (x05, true); (x07, false)]
           (whole [x02; x05; x00; x07]) vars).
  reflexivity.
Defined.

(** The bytes 02 05 07 sent in one piece set circuit_breaker to 7; the same
    bytes with a delivery ending after 05 set it to 0 and then run 07 as an
    unknown command.  Same table, same bytes, different outcome. *)
Lemma C10_deterministic_counterexample :
  map fst [(x02, false); (x05, true); (x07, false)] = map fst (whole [x02; x05; x07]) /\
  final_vars (process_client_commands [(x02, false); (x05, true); (x07, false)] vars)
    <> final_vars (process_client_commands (whole [x02; x05; x07]) vars) /\
  output (process_client_commands [(x02, false); (x05, true); (x07, false)] vars)
    <> output (process_client_commands (whole [x02; x05; x07]) vars).
Proof.
  split; [reflexivity|]. split.
  - intros H.
    assert (E : var_get (final_vars (process_client_commands
                           [(x02, false); (x05, true); (x07, false)] vars))
                  VAR_CIRCUIT_BREAKER
                = var_get (final_vars (process_client_commands
                             (whole [x02; x05; x07]) vars)) VAR_CIRCUIT_BREAKER)
      by (rewrite H; reflexivity).
    vm_compute in E. discriminate E.
  - intros H.
    assert (E : hd_error (output (process_client_commands
                            [(x02, false); (x05, true); (x07, false)] vars))
                = hd_error (output (process_client_commands
                              (whole [x02; x05; x07]) vars)))
      by (rewrite H; reflexivity).
    vm_compute in E. discriminate E.
Qed.

(** ** Short reads *)

(** C2 (as the code has it) — a [SetVariable] whose argument bytes are cut
    short is not discarded: each argument byte the read does not deliver is
    taken as 0 (the identifier defaults to [VAR_UNUSED], the value to 0),
    the assignment is made and [server_interrupt] runs once.  When the
    stream ends there the session ends, and it behaves as if the missing
    bytes had been sent as zeros; when only the delivery ends there, the
    bytes that follow are read as new commands. *)
Theorem C2_short_read_zero_filled (vs : list byte) (name : byte) (cut1 cut : bool)
    (rest : list (byte * bool)) :
  process_client_commands [(x02, cut1)] vs
  = (Returned,
     (server_interrupt (var_set vs VAR_UNUSED x00)).1,
     OutCommandSet x00 x00 :: (server_interrupt (var_set vs VAR_UNUSED x00)).2) /\
  process_client_commands [(x02, cut1); (name, cut)] vs
  = (Returned,
     (server_interrupt (var_set vs (byte_val name) x00)).1,
     OutCommandSet name x00 :: (server_interrupt (var_set vs (byte_val name) x00)).2) /\
  process_client_commands [(x02, cut1)] vs
  = process_client_commands (whole [x02; x00; x00]) vs /\
  process_client_commands [(x02, cut1); (name, cut)] vs
  = process_client_commands (whole [x02; name; x00]) vs /\
  process_client_commands ((x02, cut1) :: (name, true) :: rest) vs
  = process_client_commands (whole [x02; name; x00] ++ rest) vs.
Proof.
  assert (E0 : process_client_commands [(x02, cut1)] vs
               = (Returned, (server_interrupt (var_set vs VAR_UNUSED x00)).1,
                  OutCommandSet x00 x00 :: (server_interrupt (var_set vs VAR_UNUSED x00)).2)).
  { rewrite process_cons, switch_set_short0, process_nil. cbn [app].
    now rewrite app_nil_r. }
  assert (E1 : forall n, process_client_commands [(x02, cut1); (n, cut)] vs
               = (Returned, (server_interrupt (var_set vs (byte_val n) x00)).1,
                  OutCommandSet n x00 :: (server_interrupt (var_set vs (byte_val n) x00)).2)).
  { intros n. rewrite process_cons, switch_set_short1, process_nil. cbn [app].
    now rewrite app_nil_r. }
  assert (E2 : forall n, process_client_commands (whole [x02; n; x00]) vs
               = (Returned, (server_interrupt (var_set vs (byte_val n) x00)).1,
                  OutCommandSet n x00 :: (server_interrupt (var_set vs (byte_val n) x00)).2)).
  { intros n. unfold whole. cbn [map].
    rewrite process_cons, switch_set, process_nil. cbn [app].
    now rewrite app_nil_r. }
  split; [exact E0|]. split; [apply E1|]. split; [|split].
  - rewrite E0, E2. reflexivity.
  - rewrite E1, E2. reflexivity.
  - unfold whole. cbn [map app].
    now rewrite !process_cons, switch_set_cut, switch_set.
Qed.

(** The stream [2; 5] ends one byte short of a complete
    [SetVariable(circuit_breaker, _)]: the command is applied with value 0
    and opens the breaker, so the table is not left as it was. *)
Lemma C2_short_read_counterexample :
  final_vars (process_client_commands (whole [x02; x05]) vars) <> vars /\
  var_get vars VAR_CIRCUIT_BREAKER = x01 /\
  var_get (final_vars (process_client_commands (whole [x02; x05]) vars))
    VAR_CIRCUIT_BREAKER = x00.
Proof.
  split; [|split]; [|vm_compute; reflexivity|vm_compute; reflexivity].
  intros H.
  assert (E : var_get (final_vars (process_client_commands (whole [x02; x05]) vars))
                VAR_CIRCUIT_BREAKER = var_get vars VAR_CIRCUIT_BREAKER)
    by (rewrite H; reflexivity).
  vm_compute in E. discriminate E.
Qed.

(** ** The invariant of the reachable tables *)

Lemma loop_body_continue_after_interrupt client vs client1 vs1 out :
  loop_body client vs = (Continue client1, vs1, out) ->
  exists vs0, length vs0 = length vs /\ vs1 = (server_interrupt vs0).1.
Proof.
  destruct client as [|[command cut] client]; [discriminate|].
  rewrite loop_body_cons.
  destruct (command_cases command) as [->|[->|[->|H]]].
  - rewrite switch_nop. intros [= _ <- _]. now exists vs.
  - rewrite switch_exit. discriminate.
  - destruct (switch_set_any client vs) as (n & v & c1 & E & _).
    rewrite E. intros [= _ <- _].
    exists (var_set vs (byte_val n) v). split; [apply length_var_set | reflexivity].
  - rewrite (switch_unknown _ _ _ H). intros [= _ <- _]. now exists vs.
Qed.

Lemma reachable_wf vs : reachable vs -> wf_vars vs.
Proof.
  induction 1 as [|client vs client1 vs1 out _ IH E]; [exact wf_vars_init|].
  apply loop_body_continue_after_interrupt in E as (vs0 & L & ->).
  apply server_interrupt_wf. unfold wf_vars in *. congruence.
Qed.

Lemma breaker_safe_init : breaker_safe vars.
Proof. right. vm_compute. split; discriminate. Qed.

Lemma reachable_safe vs : reachable vs -> breaker_safe vs.
Proof.
  intros R. destruct R as [|client vs0 client1 vs1 out R E];
    [exact breaker_safe_init|].
  apply loop_body_continue_after_interrupt in E as (w & L & ->).
  apply server_interrupt_safe. apply reachable_wf in R.
  unfold wf_vars in *. congruence.
Qed.

(** The table a session ends with is one a pass of the loop left, or the
    one the session started from. *)
Lemma reachable_session client vs :
  reachable vs -> reachable (final_vars (process_client_commands client vs)).
Proof.
  remember (S (length client)) as n eqn:Hn.
  assert (L : (length client < n)%nat) by lia. clear Hn.
  revert client vs L. induction n as [|n IH]; intros client vs L R; [lia|].
  rewrite process_client_commands_unfold.
  destruct (loop_body client vs) as [[[client1| |] vs1] out] eqn:E.
  - pose proof (loop_body_continue_shorter _ _ _ _ _ E) as L1.
    assert (R1 : reachable vs1) by (eapply reachable_pass; eauto).
    specialize (IH client1 vs1 ltac:(lia) R1).
    destruct (process_client_commands client1 vs1) as [[st vs2] out2].
    exact IH.
  - destruct client as [|[c cut] client]; [|rewrite loop_body_cons in E;
      destruct (switch_command c client vs) as [[[?|] ?] ?]; discriminate].
    injection E as <- _. exact R.
  - destruct client as [|[c cut] client]; [discriminate|].
    rewrite loop_body_cons in E.
    destruct (command_cases c) as [->|[->|[->|H]]].
    + rewrite switch_nop in E. discriminate.
    + rewrite switch_exit in E. injection E as <- _. exact R.
    + destruct (switch_set_any client vs) as (n0 & v & c1 & E' & _).
      rewrite E' in E. discriminate.
    + rewrite (switch_unknown _ _ _ H) in E. discriminate.
Qed.

Lemma reachable_server clients : forall vs,
  reachable vs -> reachable (final_vars (server clients vs)).
Proof.
  induction clients as [|client clients IH]; intros vs R; [exact R|].
  cbn [server].
  pose proof (reachable_session client vs R) as R1.
  destruct (process_client_commands client vs) as [[st vs1] out].
  cbn in R1.
  destruct st; try exact R1;
    specialize (IH vs1 R1); destruct (server clients vs1) as [[st2 vs2] out2];
    exact IH.
Qed.

(** C7 — at every command boundary the breaker is not closed while the
    voltage is out of range: the initial table holds voltage 240 within
    [235, 245] with the breaker closed, every table [server_interrupt]
    returns has the breaker open or the voltage within its bounds, and so
    does every table reachable from the initial one by passes of the command
    loop, in particular the table left by any sequence of connections. *)
Theorem C7_breaker_safe_invariant (vs : list byte) :
  reachable vs ->
  breaker_safe vs /\
  wf_vars vs /\
  (forall vs0, wf_vars vs0 -> breaker_safe (server_interrupt vs0).1) /\
  (forall clients, breaker_safe (final_vars (server clients vars))) /\
  map byte_val (take 6 vars) = [0; 240; 0; 235; 245; 1].
Proof.
  intros R. split; [now apply reachable_safe|]. split; [now apply reachable_wf|].
  split; [apply server_interrupt_safe|]. split; [|reflexivity].
  intros clients. apply reachable_safe, reachable_server, reachable_init.
Qed.

Lemma C7_breaker_safe_invariant_witness :
  breaker_safe (final_vars (process_client_commands (whole [x02; x01; xc8]) vars)).
Proof.
  apply (C7_breaker_safe_invariant
           (final_vars (process_client_commands (whole [x02; x01; xc8]) vars))).
  apply (reachable_pass (whole [x02; x01; xc8]) vars [] _
           (loop_body (whole [x02; x01; xc8]) vars).2 reachable_init).
  vm_compute. reflexivity.
Defined.

(** ** The snapshot *)

Lemma variable_name_reserved i :
  non_null (variable_name i false) = true <-> 0 <= i <= 5.
Proof.
  unfold variable_name, VAR_UNUSED, VAR_VOLTAGE, VAR_AMPERAGE, VAR_MIN_VOLTAGE,
    VAR_MAX_VOLTAGE, VAR_CIRCUIT_BREAKER.
  repeat (match goal with |- context [?a =? ?b] => destruct (Z.eqb_spec a b) end;
          [cbn; split; [lia | reflexivity]|]).
  cbn. split; [discriminate | lia].
Qed.

Lemma variable_name_display i :
  0 <= i < 256 -> variable_name i true = Some (display_name i).
Proof.
  intros H.
  unfold variable_name, display_name, sprintf_var, VAR_UNUSED, VAR_VOLTAGE,
    VAR_AMPERAGE, VAR_MIN_VOLTAGE, VAR_MAX_VOLTAGE, VAR_CIRCUIT_BREAKER.
  repeat (match goal with |- context [?a =? ?b] => destruct (Z.eqb_spec a b) end;
          [reflexivity|]).
  cbn [negb]. rewrite Z.mod_small by lia. reflexivity.
Qed.

Lemma show_variable_spec vs i :
  0 <= i < 256 ->
  show_variable vs i
  = if decide (0 <= i <= 5 \/ byte_val (var_get vs i) <> 0)
    then [snapshot_event (i, display_name i, var_get vs i)]
    else [].
Proof.
  intros H. unfold show_variable, snapshot_event. cbn [fst snd].
  rewrite (variable_name_display i H).
  pose proof (variable_name_reserved i) as R.
  destruct (non_null (variable_name i false));
    destruct (Z.eqb_spec (byte_val (var_get vs i)) 0);
    cbn [orb negb]; case_decide; try reflexivity; exfalso;
    intuition (try discriminate; lia).
Qed.

Lemma show_variables_loop_spec vs n : forall i,
  0 <= i -> i + Z.of_nat n <= 256 ->
  show_variables_loop n vs i
  = map snapshot_event
      (map (fun i => (i, display_name i, var_get vs i))
         (filter (fun i => 0 <= i <= 5 \/ byte_val (var_get vs i) <> 0)
            (seqZ i (Z.of_nat n)))).
Proof.
  induction n as [|n IH]; intros i Hi Hn; [reflexivity|].
  cbn [show_variables_loop].
  destruct (Z.ltb_spec i 256); [|lia].
  rewrite seqZ_cons by lia.
  replace (Z.pred (Z.of_nat (S n))) with (Z.of_nat n) by lia.
  rewrite filter_cons, show_variable_spec by lia.
  rewrite (IH (i + 1)) by lia.
  case_decide; reflexivity.
Qed.

Lemma filter_seqZ_sorted (P : Z -> Prop) `{!forall i, Decision (P i)} n : forall i,
  StronglySorted Z.lt (filter P (seqZ i (Z.of_nat n))).
Proof.
  induction n as [|n IH]; intros i; [constructor|].
  rewrite seqZ_cons by lia.
  replace (Z.pred (Z.of_nat (S n))) with (Z.of_nat n) by lia.
  rewrite filter_cons. case_decide; [|apply IH].
  constructor; [apply IH|].
  apply Forall_forall. intros x Hx.
  apply list_elem_of_filter in Hx as [_ Hx].
  apply elem_of_seqZ in Hx. lia.
Qed.

(** C8 — the snapshot written by the interrupt handler: after the header,
    one line per identifier of 0..255 that is reserved (0-5) or holds a
    non-zero value, and no other line; the identifiers come in strictly
    ascending order; each line carries the identifier, its display name
    (the documented name for 0-5, ["var[N]"] otherwise) and its current
    value. *)
Theorem C8_snapshot (vs : list byte) :
  show_variables vs = OutVariables :: map snapshot_event (snapshot_report vs) /\
  StronglySorted Z.lt (map (fun line => line.1.1) (snapshot_report vs)) /\
  (forall i, In i (map (fun line => line.1.1) (snapshot_report vs)) <->
             0 <= i < 256 /\ (0 <= i <= 5 \/ byte_val (var_get vs i) <> 0)) /\
  (forall line, In line (snapshot_report vs) <->
             (0 <= line.1.1 < 256 /\
              (0 <= line.1.1 <= 5 \/ byte_val (var_get vs line.1.1) <> 0)) /\
             line = (line.1.1, display_name line.1.1, var_get vs line.1.1)) /\
  map display_name [0; 1; 2; 3; 4; 5; 6; 255]
  = ["unused"; "voltage"; "amperage"; "min_voltage"; "max_voltage";
     "circuit_breaker"; "var[6]"; "var[255]"]%string.
Proof.
  assert (Ids : map (fun line : Z * string * byte => line.1.1) (snapshot_report vs)
                = filter (fun i => 0 <= i <= 5 \/ byte_val (var_get vs i) <> 0)
                    (seqZ 0 256)).
  { unfold snapshot_report. rewrite map_map. cbn [fst]. apply map_id. }
  assert (Mem : forall i,
             In i (filter (fun i => 0 <= i <= 5 \/ byte_val (var_get vs i) <> 0)
                     (seqZ 0 256)) <->
             0 <= i < 256 /\ (0 <= i <= 5 \/ byte_val (var_get vs i) <> 0)).
  { intros i. rewrite <- list_elem_of_In, list_elem_of_filter, elem_of_seqZ. lia. }
  split; [|split; [|split; [|split]]].
  - unfold show_variables, snapshot_report.
    now rewrite (show_variables_loop_spec vs 256 0) by lia.
  - rewrite Ids. apply (filter_seqZ_sorted _ 256 0).
  - intros i. rewrite Ids. apply Mem.
  - intros [[i name] v]. cbn [fst snd]. unfold snapshot_report.
    rewrite in_map_iff. split.
    + intros (j & [= <- <- <-] & Hj). apply Mem in Hj. split; [exact Hj | reflexivity].
    + intros [Hi [= -> ->]]. exists i. split; [reflexivity | now apply Mem].
  - reflexivity.
Qed.

(** ** What an interrupt writes *)

Lemma show_variables_loop_report vs n : forall i,
  Forall (fun e => report_event e = true) (show_variables_loop n vs i).
Proof.
  induction n as [|n IH]; intros i; cbn [show_variables_loop]; [constructor|].
  destruct (i <? 256); [|constructor].
  apply Forall_app. split; [|apply IH].
  unfold show_variable.
  match goal with |- context [if ?c then _ else _] => destruct c end;
    repeat constructor.
Qed.

Lemma server_interrupt_output vs :
  exists rest,
    (server_interrupt vs).2 = OutServerInterrupt :: rest /\
    Forall (fun e => report_event e = true) rest.
Proof.
  rewrite server_interrupt_unfold. cbn [snd]. eexists. split; [reflexivity|].
  apply Forall_app. split.
  - unfold trip_breaker_based_on_voltage.
    match goal with |- context [if ?c then _ else _] => destruct c end;
      repeat constructor.
  - unfold show_variables. constructor; [reflexivity|].
    apply show_variables_loop_report.
Qed.

Lemma count_app f out1 out2 : count f (out1 ++ out2) = (count f out1 + count f out2)%nat.
Proof. unfold count. now rewrite List.filter_app, length_app. Qed.

Lemma count_cons f e out :
  count f (e :: out) = ((if f e then 1 else 0) + count f out)%nat.
Proof. unfold count. cbn. now destruct (f e). Qed.

Lemma count_report f rest :
  (forall e, report_event e = true -> f e = false) ->
  Forall (fun e => report_event e = true) rest ->
  count f rest = 0%nat.
Proof.
  intros Hf. induction 1 as [|e rest He _ IH]; [reflexivity|].
  rewrite count_cons, (Hf e He), IH. reflexivity.
Qed.

Lemma report_not_interrupt e : report_event e = true -> interrupt_entry e = false.
Proof. now destruct e. Qed.

Lemma report_not_command e : report_event e = true -> applied_command e = false.
Proof. now destruct e. Qed.

Lemma count_interrupt_output vs :
  count interrupt_entry (server_interrupt vs).2 = 1%nat /\
  count applied_command (server_interrupt vs).2 = 0%nat /\
  ~ In OutCommandExit (server_interrupt vs).2.
Proof.
  destruct (server_interrupt_output vs) as (rest & -> & F).
  rewrite !count_cons. cbn [interrupt_entry applied_command].
  rewrite (count_report interrupt_entry rest report_not_interrupt F).
  rewrite (count_report applied_command rest report_not_command F).
  split; [reflexivity|]. split; [reflexivity|].
  intros [H|H]; [discriminate|].
  rewrite Forall_forall in F. apply list_elem_of_In, F in H. discriminate.
Qed.

(** ** Commands and interrupts *)

Lemma session_paired client vs st vs' out :
  session client vs st vs' out -> paired out.
Proof.
  induction 1 as
    [ vs
    | cut client vs vs1 out st vs2 out2 Hi _ IH
    | cut client vs
    | cut1 name val cut2 client vs vs1 out st vs2 out2 Hi _ IH
    | cut1 name cut client vs vs1 out st vs2 out2 Hs Hi _ IH
    | cut1 vs vs1 out Hi
    | command cut client vs vs1 out st vs2 out2 Hc Hi _ IH ].
  - constructor.
  - replace out with (server_interrupt vs).2 by now rewrite Hi.
    now apply paired_command.
  - constructor.
  - replace out with (server_interrupt (var_set vs (byte_val name) val)).2
      by now rewrite Hi.
    now apply paired_command.
  - replace out with (server_interrupt (var_set vs (byte_val name) x00)).2
      by now rewrite Hi.
    now apply paired_command.
  - replace out with ((server_interrupt (var_set vs 0 x00)).2 ++ [])
      by now rewrite Hi, app_nil_r.
    apply paired_command; [reflexivity | constructor].
  - replace out with (server_interrupt vs).2 by now rewrite Hi.
    now apply paired_command.
Qed.

Lemma interrupt_no_exit vs vs1 out :
  server_interrupt vs = (vs1, out) -> ~ In OutCommandExit out.
Proof.
  intros Hi. destruct (count_interrupt_output vs) as (_ & _ & N).
  now rewrite Hi in N.
Qed.

Lemma session_exit_iff client vs st vs' out :
  session client vs st vs' out -> (st = Exited <-> In OutCommandExit out).
Proof.
  induction 1 as
    [ vs
    | cut client vs vs1 out st vs2 out2 Hi _ IH
    | cut client vs
    | cut1 name val cut2 client vs vs1 out st vs2 out2 Hi _ IH
    | cut1 name cut client vs vs1 out st vs2 out2 Hs Hi _ IH
    | cut1 vs vs1 out Hi
    | command cut client vs vs1 out st vs2 out2 Hc Hi _ IH ];
    try (pose proof (interrupt_no_exit _ _ _ Hi) as N);
    cbn [In]; rewrite ?in_app_iff, ?IH;
    (split; [try discriminate; tauto|]);
    intuition discriminate.
Qed.

Lemma paired_counts out :
  paired out -> count interrupt_entry out = count applied_command out.
Proof.
  induction 1 as [| |e vs rest He _ IH]; [reflexivity | reflexivity |].
  destruct (count_interrupt_output vs) as (C1 & C0 & _).
  rewrite !count_cons, !count_app, C1, C0, IH, He.
  now destruct e.
Qed.

Lemma paired_after_exit out :
  paired out ->
  forall pre post, out = pre ++ OutCommandExit :: post -> post = [SysUnlink].
Proof.
  induction 1 as [| |e vs rest He _ IH]; intros pre post E.
  - now destruct pre.
  - destruct pre as [|a [|b [|c pre]]]; cbn in E; try discriminate.
    now injection E as <-.
  - destruct pre as [|a pre]; cbn in E.
    { injection E as -> _. discriminate. }
    injection E as _ E.
    destruct (count_interrupt_output vs) as (_ & _ & N).
    apply app_eq_inv in E as [(k & E1 & E2)|(k & E1 & E2)].
    + destruct k as [|b k]; cbn in E2.
      * apply (IH [] post). now rewrite <- E2.
      * exfalso. apply N. rewrite E1. apply in_app_iff. right.
        injection E2 as <- _. now left.
    + eapply IH. exact E2.
Qed.

Lemma loop_body_pass command cut client vs :
  (command = x01 /\
   loop_body ((command, cut) :: client) vs = (Exit, vs, [OutCommandExit; SysUnlink])) \/
  (command <> x01 /\
   exists e client1 vs1,
     applied_command e = true /\
     switch_command command client vs = (Break client1, vs1, [e]) /\
     loop_body ((command, cut) :: client) vs
     = (Continue client1, (server_interrupt vs1).1, e :: (server_interrupt vs1).2)).
Proof.
  rewrite loop_body_cons.
  destruct (command_cases command) as [->|[->|[->|H]]].
  - right. split; [discriminate|]. rewrite switch_nop.
    exists OutCommandNop, client, vs. repeat split.
  - left. split; [reflexivity|]. now rewrite switch_exit.
  - right. split; [discriminate|].
    destruct (switch_set_any client vs) as (n & v & c1 & E & _). rewrite E.
    exists (OutCommandSet n v), c1, (var_set vs (byte_val n) v). repeat split.
  - right. split; [intros ->; cbn in H; lia|]. rewrite (switch_unknown _ _ _ H).
    exists (OutUnknownCommand command), client, vs. repeat split.
Qed.

(** C5 — commands and interrupts are paired.  A pass of the loop that
    reads a command byte other than [exit] applies the command ([nop],
    [set variable], or an unknown code), reports it, and then runs
    [server_interrupt] once on the resulting table; a pass that reads
    [exit] runs no handler.  [server_interrupt] writes its entry line, runs
    the policy and then takes the snapshot of the table the policy left.
    So what a session writes is a sequence of blocks, each one the report
    of an applied command directly followed by the output of one run of the
    handler; there are as many handler runs as applied commands; [exit] is
    reported only when the process exits, and nothing but the [unlink]
    follows it. *)
Theorem C5_interrupt_pairing (client : list (byte * bool)) (vs : list byte) :
  paired (output (process_client_commands client vs)) /\
  count interrupt_entry (output (process_client_commands client vs))
  = count applied_command (output (process_client_commands client vs)) /\
  (forall command cut rest,
     (command = x01 /\
      loop_body ((command, cut) :: rest) vs = (Exit, vs, [OutCommandExit; SysUnlink])) \/
     (command <> x01 /\
      exists e rest1 vs1,
        applied_command e = true /\
        switch_command command rest vs = (Break rest1, vs1, [e]) /\
        loop_body ((command, cut) :: rest) vs
        = (Continue rest1, (server_interrupt vs1).1, e :: (server_interrupt vs1).2))) /\
  (forall vs0,
     server_interrupt vs0
     = ((trip_breaker_based_on_voltage vs0).1,
        OutServerInterrupt :: (trip_breaker_based_on_voltage vs0).2
          ++ show_variables (trip_breaker_based_on_voltage vs0).1) /\
     count interrupt_entry (server_interrupt vs0).2 = 1%nat /\
     count applied_command (server_interrupt vs0).2 = 0%nat /\
     ~ In OutCommandExit (server_interrupt vs0).2) /\
  (final_status (process_client_commands client vs) = Exited <->
   In OutCommandExit (output (process_client_commands client vs))) /\
  (forall pre post,
     output (process_client_commands client vs) = pre ++ OutCommandExit :: post ->
     post = [SysUnlink]).
Proof.
  destruct (session_process client vs) as [S _].
  pose proof (session_paired _ _ _ _ _ S) as P.
  split; [exact P|]. split; [now apply paired_counts|].
  split; [intros command cut rest; apply loop_body_pass|]. split; [|split].
  - intros vs0. split; [apply server_interrupt_unfold | apply count_interrupt_output].
  - exact (session_exit_iff _ _ _ _ _ S).
  - now apply paired_after_exit.
Qed.

Lemma C5_interrupt_pairing_witness :
  exists pre post,
    output (process_client_commands (whole [x07; x00; x02; x09; x03; x01]) vars)
    = pre ++ OutCommandExit :: post /\
    post = [SysUnlink] /\
    count interrupt_entry
      (output (process_client_commands (whole [x07; x00; x02; x09; x03; x01]) vars)) = 3%nat.
Proof.
  destruct (C5_interrupt_pairing (whole [x07; x00; x02; x09; x03; x01]) vars)
    as (_ & C & _ & _ & _ & A).
  exists (take 28 (output (process_client_commands (whole [x07; x00; x02; x09; x03; x01]) vars))),
         (drop 29 (output (process_client_commands (whole [x07; x00; x02; x09; x03; x01]) vars))).
  split; [vm_compute; reflexivity|]. split.
  - apply (A (take 28 (output (process_client_commands (whole [x07; x00; x02; x09; x03; x01]) vars)))).
    vm_compute. reflexivity.
  - rewrite C. vm_compute. reflexivity.
Defined.

(** ** [nop] *)

(** C6 — in a table reachable from the initial one, a [nop] with its
    interrupt leaves the whole table as it was and runs the handler once:
    the pass writes the command report, the entry line of the handler and
    the snapshot of the unchanged table, and no trip. *)
Theorem C6_nop_no_op (vs : list byte) (cut : bool) (client : list (byte * bool)) :
  reachable vs ->
  loop_body ((x00, cut) :: client) vs
  = (Continue client, vs, OutCommandNop :: OutServerInterrupt :: show_variables vs) /\
  process_client_commands [(x00, cut)] vs
  = (Returned, vs, OutCommandNop :: OutServerInterrupt :: show_variables vs) /\
  count interrupt_entry (OutCommandNop :: OutServerInterrupt :: show_variables vs) = 1%nat.
Proof.
  intros R.
  pose proof (server_interrupt_idle vs (reachable_safe vs R)) as I.
  split; [|split].
  - rewrite loop_body_cons, switch_nop, I. reflexivity.
  - rewrite process_cons, switch_nop, I, process_nil. cbn [fst snd app].
    rewrite app_nil_r. reflexivity.
  - pose proof (count_interrupt_output vs) as (C & _). rewrite I in C.
    cbn [snd] in C. rewrite count_cons. cbn [interrupt_entry]. exact C.
Qed.

Lemma C6_nop_no_op_witness :
  final_vars (process_client_commands (whole [x00]) vars) = vars.
Proof.
  destruct (C6_nop_no_op vars false [] reachable_init) as (_ & E & _).
  change (whole [x00]) with [(x00, false)]. rewrite E. reflexivity.
Defined.

(** ** Reading and writing the table *)

(** C9 — reads and writes of the table are total over the 8-bit
    identifiers: every identifier indexes an element of a 256-element
    table, a never-written identifier reads as its initial value (240, 235,
    245 and 1 for voltage, min_voltage, max_voltage and circuit_breaker, 0
    for all others), a write followed by a read of the same identifier
    yields the written value, the table keeps its 256 elements, and the
    [SetVariable] branch of the switch performs the write for every
    identifier and value without any check. *)
Theorem C9_total_get_set (vs : list byte) (id v : byte) :
  wf_vars vs ->
  is_Some (vs !! Z.to_nat (byte_val id)) /\
  is_Some (vars !! Z.to_nat (byte_val id)) /\
  byte_val (var_get vars (byte_val id)) = initial_default id /\
  var_get (var_set vs (byte_val id) v) (byte_val id) = v /\
  wf_vars (var_set vs (byte_val id) v) /\
  (forall cut client,
     switch_command x02 ((id, false) :: (v, cut) :: client) vs
     = (Break client, var_set vs (byte_val id) v, [OutCommandSet id v])).
Proof.
  intros W. pose proof (byte_index_lt id) as L.
  split; [|split; [|split; [|split; [|split]]]].
  - apply lookup_lt_is_Some. unfold wf_vars in W. now rewrite W.
  - apply lookup_lt_is_Some. exact L.
  - destruct id; vm_compute; reflexivity.
  - apply var_get_set_eq. unfold wf_vars in W. now rewrite W.
  - now apply wf_var_set.
  - intros cut client. apply switch_set.
Qed.

Lemma C9_total_get_set_witness :
  var_get (var_set vars (byte_val xff) x2a) (byte_val xff) = x2a.
Proof.
  apply (C9_total_get_set vars xff x2a). reflexivity.
Defined.

(** ** The breaker under commands *)

Lemma interrupt_breaker vs :
  var_get (server_interrupt vs).1 VAR_CIRCUIT_BREAKER = var_get vs VAR_CIRCUIT_BREAKER \/
  var_get (server_interrupt vs).1 VAR_CIRCUIT_BREAKER = x00.
Proof.
  rewrite server_interrupt_unfold. cbn [fst].
  unfold trip_breaker_based_on_voltage.
  match goal with |- context [if ?c then _ else _] => destruct c end; cbn [fst];
    [|now left].
  destruct (decide (Z.to_nat VAR_CIRCUIT_BREAKER < length vs)%nat) as [L|L].
  - right. now apply var_get_set_eq.
  - left. unfold var_set. now rewrite list_insert_ge by lia.
Qed.

Lemma interrupt_keeps_open vs vs1 out :
  server_interrupt vs = (vs1, out) ->
  var_get vs VAR_CIRCUIT_BREAKER = x00 ->
  var_get vs1 VAR_CIRCUIT_BREAKER = x00.
Proof.
  intros Hi H. destruct (interrupt_breaker vs) as [E|E];
    rewrite Hi in E; cbn [fst] in E; congruence.
Qed.

Lemma set_keeps_open vs name val :
  var_get vs VAR_CIRCUIT_BREAKER = x00 ->
  name <> x05 \/ val = x00 ->
  var_get (var_set vs (byte_val name) val) VAR_CIRCUIT_BREAKER = x00.
Proof.
  intros H [N| ->].
  - rewrite var_get_set_ne; [exact H|].
    intros E. apply N, byte_val_inj.
    pose proof (byte_val_range name). change (byte_val x05) with 5.
    unfold VAR_CIRCUIT_BREAKER in E. lia.
  - now apply var_get_set_zero.
Qed.

Lemma session_breaker client vs st vs' out :
  session client vs st vs' out ->
  var_get vs VAR_CIRCUIT_BREAKER = x00 ->
  var_get vs' VAR_CIRCUIT_BREAKER = x00 \/
  exists v, v <> x00 /\ In (OutCommandSet x05 v) out.
Proof.
  induction 1 as
    [ vs
    | cut client vs vs1 out st vs2 out2 Hi _ IH
    | cut client vs
    | cut1 name val cut2 client vs vs1 out st vs2 out2 Hi _ IH
    | cut1 name cut client vs vs1 out st vs2 out2 Hs Hi _ IH
    | cut1 vs vs1 out Hi
    | command cut client vs vs1 out st vs2 out2 Hc Hi _ IH ]; intros B.
  - now left.
  - destruct (IH (interrupt_keeps_open _ _ _ Hi B)) as [E|(v & Hv & Hin)];
      [now left|].
    right. exists v. split; [exact Hv|]. right. apply in_app_iff. now right.
  - now left.
  - destruct (decide (name = x05)) as [->|N];
      [destruct (decide (val = x00)) as [->|V]|].
    + destruct (IH (interrupt_keeps_open _ _ _ Hi
                      (set_keeps_open vs x05 x00 B (or_intror eq_refl))))
        as [E|(v & Hv & Hin)]; [now left|].
      right. exists v. split; [exact Hv|]. right. apply in_app_iff. now right.
    + right. exists val. split; [exact V | now left].
    + destruct (IH (interrupt_keeps_open _ _ _ Hi
                      (set_keeps_open vs name val B (or_introl N))))
        as [E|(v & Hv & Hin)]; [now left|].
      right. exists v. split; [exact Hv|]. right. apply in_app_iff. now right.
  - destruct (IH (interrupt_keeps_open _ _ _ Hi
                    (set_keeps_open vs name x00 B (or_intror eq_refl))))
      as [E|(v & Hv & Hin)]; [now left|].
    right. exists v. split; [exact Hv|]. right. apply in_app_iff. now right.
  - left. apply (interrupt_keeps_open _ _ _ Hi).
    now apply var_get_set_zero.
  - destruct (IH (interrupt_keeps_open _ _ _ Hi B)) as [E|(v & Hv & Hin)];
      [now left|].
    right. exists v. split; [exact Hv|]. right. apply in_app_iff. now right.
Qed.

Lemma explicit_reset vs v cut1 cut2 :
  wf_vars vs -> ~ voltage_out_of_range vs ->
  process_client_commands [(x02, cut1); (x05, false); (v, cut2)] vs
  = (Returned, var_set vs VAR_CIRCUIT_BREAKER v,
     OutCommandSet x05 v :: OutServerInterrupt
       :: show_variables (var_set vs VAR_CIRCUIT_BREAKER v)).
Proof.
  intros W R.
  assert (I : trip_breaker_based_on_voltage (var_set vs VAR_CIRCUIT_BREAKER v)
              = (var_set vs VAR_CIRCUIT_BREAKER v, [])).
  { apply (trip_spec (var_set vs VAR_CIRCUIT_BREAKER v)).
    intros [_ O]. apply R. unfold voltage_out_of_range in *.
    rewrite !(var_get_set_ne vs VAR_CIRCUIT_BREAKER) in O by (cbv; lia).
    exact O. }
  rewrite process_cons, switch_set, process_nil.
  change (byte_val x05) with VAR_CIRCUIT_BREAKER.
  rewrite server_interrupt_unfold, I. cbn [fst snd app].
  rewrite app_nil_r. reflexivity.
Qed.

(** C4 — once open, the breaker stays open until a command sets it: from
    a table with [circuit_breaker == 0], a session in which no applied
    [SetVariable] names circuit_breaker with a non-zero value ends with
    [circuit_breaker == 0]; if the session ends with the breaker non-zero,
    an applied [SetVariable(circuit_breaker, v)] with [v] non-zero is among
    its commands; and such a command, sent while the voltage is within its
    bounds, does leave circuit_breaker at [v]. *)
Theorem C4_breaker_stays_open (client : list (byte * bool)) (vs : list byte) :
  var_get vs VAR_CIRCUIT_BREAKER = x00 ->
  ((forall v, In (OutCommandSet x05 v) (output (process_client_commands client vs)) ->
              v = x00) ->
   var_get (final_vars (process_client_commands client vs)) VAR_CIRCUIT_BREAKER = x00) /\
  (var_get (final_vars (process_client_commands client vs)) VAR_CIRCUIT_BREAKER <> x00 ->
   exists v, v <> x00 /\
             In (OutCommandSet x05 v) (output (process_client_commands client vs))) /\
  (wf_vars vs -> ~ voltage_out_of_range vs ->
   forall v cut1 cut2,
     var_get (final_vars (process_client_commands
                [(x02, cut1); (x05, false); (v, cut2)] vs))
       VAR_CIRCUIT_BREAKER = v).
Proof.
  intros B. destruct (session_process client vs) as [S _].
  assert (X : wf_vars vs -> ~ voltage_out_of_range vs ->
              forall v cut1 cut2,
                var_get (final_vars (process_client_commands
                           [(x02, cut1); (x05, false); (v, cut2)] vs))
                  VAR_CIRCUIT_BREAKER = v).
  { intros W R v cut1 cut2. rewrite (explicit_reset vs v cut1 cut2 W R).
    unfold final_vars. cbn [fst snd].
    apply var_get_set_eq. unfold wf_vars in W. rewrite W. cbv. lia. }
  destruct (session_breaker _ _ _ _ _ S B) as [E|(v & Hv & Hin)].
  - split; [intros _; exact E|]. split; [intros N; contradiction | exact X].
  - split; [|split; [|exact X]].
    + intros A. exfalso. apply Hv. now apply A.
    + intros _. exists v. now split.
Qed.

Lemma C4_breaker_stays_open_witness :
  var_get (final_vars (process_client_commands
             (whole [x02; x01; xf0; x00; x02; x01; xeb; x02; x05; x00; x09])
             (var_set vars VAR_CIRCUIT_BREAKER x00)))
    VAR_CIRCUIT_BREAKER = x00.
Proof.
  apply (C4_breaker_stays_open
           (whole [x02; x01; xf0; x00; x02; x01; xeb; x02; x05; x00; x09])
           (var_set vars VAR_CIRCUIT_BREAKER x00)).
  - reflexivity.
  - intros v H.
    apply (in_map (fun e => match e with
                            | OutCommandSet x05 w => w
                            | _ => x00
                            end)) in H.
    cbv beta iota in H. vm_compute in H.
    repeat (destruct H as [H|H]; [symmetry; exact H|]). destruct H.
Defined.

(** ** Sequences of [SetVariable] *)

Lemma byte_index_inj (a b : byte) :
  Z.to_nat (byte_val a) = Z.to_nat (byte_val b) -> a = b.
Proof.
  intros E. apply byte_val_inj.
  pose proof (byte_val_range a). pose proof (byte_val_range b). lia.
Qed.



(** [last_set] picks the latest command that names the identifier. *)
Lemma last_set_snoc id cmds i v :
  last_set id (cmds ++ [(i, v)])
  = if Byte.eqb i id then Some v else last_set id cmds.
Proof.
  induction cmds as [|[j w] cmds IH]; cbn [last_set app].
  - reflexivity.
  - rewrite IH. destruct (Byte.eqb i id); [reflexivity|].
    reflexivity.
Qed.


Lemma filter_interrupt_output vs :
  List.filter applied_command (server_interrupt vs).2 = [].
Proof.
  destruct (count_interrupt_output vs) as (_ & C & _).
  unfold count in C. now apply length_zero_iff_nil.
Qed.






Lemma delivers_reports client cmds :
  delivers client cmds ->
  forall vs,
    List.filter applied_command (output (process_client_commands client vs))
    = map command_report cmds /\
    final_status (process_client_commands client vs) = Returned.
Proof.
  induction 1 as
    [ | cut client cmds _ IH
      | cut1 name val cut2 client cmds _ IH
      | code cut client cmds Hc _ IH ]; intros vs.
  - split; reflexivity.
  - rewrite process_cons, switch_nop.
    destruct (IH (server_interrupt vs).1) as [F S].
    destruct (process_client_commands client (server_interrupt vs).1) as [[st vs2] out2].
    unfold output, final_status in *. cbn [fst snd app List.filter applied_command] in *.
    now rewrite List.filter_app, filter_interrupt_output, F, S.
  - rewrite process_cons, switch_set.
    destruct (IH (server_interrupt (var_set vs (byte_val name) val)).1) as [F S].
    destruct (process_client_commands client
                (server_interrupt (var_set vs (byte_val name) val)).1) as [[st vs2] out2].
    unfold output, final_status in *. cbn [fst snd app List.filter applied_command] in *.
    now rewrite List.filter_app, filter_interrupt_output, F, S.
  - rewrite process_cons, (switch_unknown _ _ _ Hc).
    destruct (IH (server_interrupt vs).1) as [F S].
    destruct (process_client_commands client (server_interrupt vs).1) as [[st vs2] out2].
    unfold output, final_status in *. cbn [fst snd app List.filter applied_command] in *.
    now rewrite List.filter_app, filter_interrupt_output, F, S.
Qed.






(** * Further properties of the server *)

(** ** Streams of complete commands *)

Lemma command_stream_cons c cmds :
  command_stream (c :: cmds) = command_bytes c ++ command_stream cmds.
Proof. reflexivity. Qed.

(** A stream of complete commands sent and received in one piece delivers
    those commands. *)
Lemma delivers_whole cmds :
  Forall valid_command cmds -> delivers (whole (command_stream cmds)) cmds.
Proof.
  induction 1 as [|c cmds Vc _ IH]; [constructor|].
  rewrite command_stream_cons, whole_app.
  destruct c as [|name val|code]; cbn [command_bytes whole map app].
  - now constructor.
  - now constructor.
  - now constructor.
Qed.

Lemma process_app_tail (client2 : list (byte * bool)) vs1 pre :
  (let '(st, vs2, out2) := process_client_commands client2 vs1 in
   (st, vs2, pre ++ out2))
  = (final_status (process_client_commands client2 vs1),
     final_vars (process_client_commands client2 vs1),
     pre ++ output (process_client_commands client2 vs1)).
Proof. now destruct (process_client_commands client2 vs1) as [[st vs2] out2]. Qed.

(** Framing: a stream that starts by delivering complete commands, the
    arguments of each [SetVariable] in one delivery, is processed as those
    commands followed by the rest of the stream, which is read from the
    table the commands left; the boundaries between commands need no
    delimiter.  A stream of complete commands received in one piece is such
    a delivery. *)
Theorem command_stream_app (client rest : list (byte * bool)) (cmds : list command)
    (vs : list byte) :
  delivers client cmds ->
  process_client_commands (client ++ rest) vs
  = (final_status (process_client_commands rest
       (final_vars (process_client_commands client vs))),
     final_vars (process_client_commands rest
       (final_vars (process_client_commands client vs))),
     output (process_client_commands client vs)
       ++ output (process_client_commands rest
            (final_vars (process_client_commands client vs)))) /\
  (Forall valid_command cmds -> delivers (whole (command_stream cmds)) cmds).
Proof.
  intros D. split; [|apply delivers_whole].
  revert vs. induction D as
    [ | cut client cmds _ IH
      | cut1 name val cut2 client cmds _ IH
      | code cut client cmds Hc _ IH ]; intros vs.
  - cbn [app]. rewrite process_nil. unfold final_status, final_vars, output.
    cbn [fst snd app].
    destruct (process_client_commands rest vs) as [[st vs2] out2]. reflexivity.
  - cbn [app]. rewrite !process_cons, !switch_nop, !process_app_tail, IH.
    unfold final_status, final_vars, output. cbn [fst snd]. now rewrite app_assoc.
  - cbn [app]. rewrite !process_cons, !switch_set, !process_app_tail, IH.
    unfold final_status, final_vars, output. cbn [fst snd]. now rewrite app_assoc.
  - cbn [app]. rewrite !process_cons, !(switch_unknown _ _ _ Hc), !process_app_tail, IH.
    unfold final_status, final_vars, output. cbn [fst snd]. now rewrite app_assoc.
Qed.

Lemma command_stream_app_witness :
  final_vars (process_client_commands
                (whole (command_stream [SetVariable x01 xc8; Unknown x09; Nop])
                   ++ [(x02, false); (x05, true); (x01, false)])
                vars)
  = final_vars (process_client_commands [(x02, false); (x05, true); (x01, false)]
      (final_vars (process_client_commands
                     (whole (command_stream [SetVariable x01 xc8; Unknown x09; Nop]))
                     vars))).
Proof.
  destruct (command_stream_app
              (whole (command_stream [SetVariable x01 xc8; Unknown x09; Nop]))
              [(x02, false); (x05, true); (x01, false)]
              [SetVariable x01 xc8; Unknown x09; Nop] vars) as [E _].
  - repeat constructor.
  - rewrite E. reflexivity.
Defined.

(** Round trip of the wire format: when the stream delivers complete
    commands, the arguments of each [SetVariable] in one delivery, the
    commands the server reports are exactly those commands, in the same
    order, and the session ends by the peer closing, not by an exit.  This
    is so in particular for the encoding of the commands received in one
    piece. *)
Theorem command_stream_round_trip (client : list (byte * bool)) (cmds : list command)
    (vs : list byte) :
  delivers client cmds ->
  (List.filter applied_command (output (process_client_commands client vs))
   = map command_report cmds /\
   final_status (process_client_commands client vs) = Returned) /\
  (Forall valid_command cmds ->
   List.filter applied_command
     (output (process_client_commands (whole (command_stream cmds)) vs))
   = map command_report cmds).
Proof.
  intros D. split; [now apply delivers_reports|].
  intros V. now apply delivers_reports, delivers_whole.
Qed.

Lemma command_stream_round_trip_witness :
  List.filter applied_command
    (output (process_client_commands
               [(xff, true); (x02, true); (x05, false); (x00, true); (x00, false)] vars))
  = [OutUnknownCommand xff; OutCommandSet x05 x00; OutCommandNop].
Proof.
  destruct (command_stream_round_trip
              [(xff, true); (x02, true); (x05, false); (x00, true); (x00, false)]
              [Unknown xff; SetVariable x05 x00; Nop] vars) as [[E _] _].
  - apply delivers_unknown; [reflexivity|].
    apply delivers_set, delivers_nop, delivers_nil.
  - exact E.
Defined.

(** An [exit] after complete commands ends everything: the bytes that
    follow it are never read, the table is the one the earlier commands
    left, and the handler does not run for the exit. *)
Theorem exit_discards_rest (client rest : list (byte * bool)) (cmds : list command)
    (cut : bool) (vs : list byte) :
  delivers client cmds ->
  process_client_commands (client ++ (x01, cut) :: rest) vs
  = (Exited,
     final_vars (process_client_commands client vs),
     output (process_client_commands client vs) ++ [OutCommandExit; SysUnlink]).
Proof.
  intros D.
  revert vs. induction D as
    [ | cut0 client cmds _ IH
      | cut1 name val cut2 client cmds _ IH
      | code cut0 client cmds Hc _ IH ]; intros vs.
  - cbn [app]. now rewrite process_cons, switch_exit.
  - cbn [app]. rewrite !process_cons, !switch_nop, !process_app_tail, IH.
    unfold final_status, final_vars, output. cbn [fst snd]. now rewrite app_assoc.
  - cbn [app]. rewrite !process_cons, !switch_set, !process_app_tail, IH.
    unfold final_status, final_vars, output. cbn [fst snd]. now rewrite app_assoc.
  - cbn [app]. rewrite !process_cons, !(switch_unknown _ _ _ Hc), !process_app_tail, IH.
    unfold final_status, final_vars, output. cbn [fst snd]. now rewrite app_assoc.
Qed.

Lemma exit_discards_rest_witness :
  process_client_commands
    ([(x02, false); (x03, false); (x00, true)] ++ (x01, false) :: whole [x02; x01; x00])
    vars
  = process_client_commands
      ([(x02, false); (x03, false); (x00, true)] ++ (x01, true) :: []) vars.
Proof.
  rewrite (exit_discards_rest _ (whole [x02; x01; x00]) [SetVariable x03 x00] false vars)
    by repeat constructor.
  rewrite (exit_discards_rest _ [] [SetVariable x03 x00] true vars)
    by repeat constructor.
  reflexivity.
Defined.

(** ** Bytes and handler runs *)

Lemma session_bytes client vs st vs' out :
  session client vs st vs' out ->
  (count applied_command out <= length client)%nat /\
  (st = Returned -> (length client <= 3 * count applied_command out)%nat) /\
  (st = Exited -> (count applied_command out < length client)%nat).
Proof.
  induction 1 as
    [ vs
    | cut client vs vs1 out st vs2 out2 Hi _ IH
    | cut client vs
    | cut1 name val cut2 client vs vs1 out st vs2 out2 Hi _ IH
    | cut1 name cut client vs vs1 out st vs2 out2 Hs Hi _ IH
    | cut1 vs vs1 out Hi
    | command cut client vs vs1 out st vs2 out2 Hc Hi _ IH ];
    try (match type of Hi with server_interrupt ?v = _ =>
           pose proof (count_interrupt_output v) as (_ & C0 & _);
           rewrite Hi in C0; cbn [snd] in C0
         end);
    rewrite ?count_cons, ?count_app; cbn [applied_command length];
    try rewrite C0; cbn [count List.filter length];
    repeat split; try discriminate; try lia; intuition lia.
Qed.

(** Every applied command costs the peer between one and three bytes: a
    session runs at most one command, hence at most one handler, per byte
    received; and a session that ends by the peer closing has received at
    most three bytes per command. *)
Theorem handler_runs_bounded (client : list (byte * bool)) (vs : list byte) :
  (count interrupt_entry (output (process_client_commands client vs))
     <= length client)%nat /\
  (final_status (process_client_commands client vs) = Returned ->
   (length client
      <= 3 * count interrupt_entry (output (process_client_commands client vs)))%nat).
Proof.
  destruct (session_process client vs) as [S _].
  rewrite (paired_counts _ (session_paired _ _ _ _ _ S)).
  destruct (session_bytes _ _ _ _ _ S) as (A & B & _). split; assumption.
Qed.

Lemma handler_runs_bounded_witness :
  (length [(x02, true); (x09, true); (x03, false); (x07, false); (x02, false)]
     <= 3 * 4)%nat.
Proof.
  transitivity
    (3 * count interrupt_entry
           (output (process_client_commands
                      [(x02, true); (x09, true); (x03, false); (x07, false); (x02, false)]
                      vars)))%nat.
  - apply (handler_runs_bounded
             [(x02, true); (x09, true); (x03, false); (x07, false); (x02, false)] vars).
    vm_compute. reflexivity.
  - vm_compute. lia.
Defined.

(** ** The handler run twice *)

(** The handler settles the table in one run: run again on the table it
    returned, it changes nothing and reports no trip.  So after the first
    of any number of consecutive [nop]s the table no longer changes. *)
Theorem interrupt_settles (vs : list byte) (n : nat) (cut : bool) :
  wf_vars vs ->
  server_interrupt (server_interrupt vs).1
  = ((server_interrupt vs).1,
     OutServerInterrupt :: show_variables (server_interrupt vs).1) /\
  final_vars (process_client_commands (replicate (S n) (x00, cut)) vs)
  = (server_interrupt vs).1.
Proof.
  intros W.
  assert (I : forall v, wf_vars v ->
                server_interrupt (server_interrupt v).1
                = ((server_interrupt v).1,
                   OutServerInterrupt :: show_variables (server_interrupt v).1)).
  { intros v Wv. apply server_interrupt_idle. now apply server_interrupt_safe. }
  split; [now apply I|].
  revert vs W. induction n as [|n IH]; intros vs W.
  - cbn [replicate]. rewrite process_cons, switch_nop, process_nil. reflexivity.
  - change (replicate (S (S n)) (x00, cut))
      with ((x00, cut) :: replicate (S n) (x00, cut)).
    rewrite process_cons, switch_nop.
    specialize (IH (server_interrupt vs).1 (server_interrupt_wf vs W)).
    rewrite (I vs W) in IH. cbn [fst] in IH.
    destruct (process_client_commands (replicate (S n) (x00, cut))
                (server_interrupt vs).1)
      as [[st vs2] out2].
    exact IH.
Qed.

Lemma interrupt_settles_witness :
  final_vars (process_client_commands (replicate 4 (x00, true))
                (var_set vars VAR_VOLTAGE x00))
  = (server_interrupt (var_set vars VAR_VOLTAGE x00)).1.
Proof.
  apply (interrupt_settles (var_set vars VAR_VOLTAGE x00) 3 true). reflexivity.
Defined.

(** ** What a session leaves alone *)

Lemma byte_index_ne (a b : byte) :
  a <> b -> Z.to_nat (byte_val a) <> Z.to_nat (byte_val b).
Proof. intros N E. apply N, byte_index_inj, E. Qed.

Lemma interrupt_other_eq vs0 vs1 out id :
  server_interrupt vs0 = (vs1, out) -> id <> x05 ->
  var_get vs1 (byte_val id) = var_get vs0 (byte_val id).
Proof.
  intros Hi N. pose proof (server_interrupt_other vs0 (byte_val id)) as X.
  rewrite Hi in X. apply X. exact (byte_index_ne id x05 N).
Qed.

Lemma session_frame client vs st vs' out :
  session client vs st vs' out ->
  forall id, id <> x05 ->
    (forall v, ~ In (OutCommandSet id v) out) ->
    var_get vs' (byte_val id) = var_get vs (byte_val id).
Proof.
  induction 1 as
    [ vs
    | cut client vs vs1 out st vs2 out2 Hi _ IH
    | cut client vs
    | cut1 name val cut2 client vs vs1 out st vs2 out2 Hi _ IH
    | cut1 name cut client vs vs1 out st vs2 out2 Hs Hi _ IH
    | cut1 vs vs1 out Hi
    | command cut client vs vs1 out st vs2 out2 Hc Hi _ IH ];
    intros id N A.
  - reflexivity.
  - rewrite (IH id N), (interrupt_other_eq _ _ _ id Hi N); [reflexivity|].
    intros v Hv. apply (A v). right. apply in_app_iff. now right.
  - reflexivity.
  - rewrite (IH id N), (interrupt_other_eq _ _ _ id Hi N).
    + apply var_get_set_ne, byte_index_ne. intros ->. apply (A val). now left.
    + intros v Hv. apply (A v). right. apply in_app_iff. now right.
  - rewrite (IH id N), (interrupt_other_eq _ _ _ id Hi N).
    + apply var_get_set_ne, byte_index_ne. intros ->. apply (A x00). now left.
    + intros v Hv. apply (A v). right. apply in_app_iff. now right.
  - rewrite (interrupt_other_eq _ _ _ id Hi N).
    apply (var_get_set_ne vs (byte_val x00)), byte_index_ne.
    intros <-. apply (A x00). now left.
  - rewrite (IH id N), (interrupt_other_eq _ _ _ id Hi N); [reflexivity|].
    intros v Hv. apply (A v). right. apply in_app_iff. now right.
Qed.

(** Frame of a session, for any byte stream: an identifier other than
    circuit_breaker that no applied [SetVariable] names holds at the end
    the value it held at the start. *)
Theorem session_leaves_unnamed (client : list (byte * bool)) (vs : list byte)
    (id : byte) :
  id <> x05 ->
  (forall v, ~ In (OutCommandSet id v) (output (process_client_commands client vs))) ->
  var_get (final_vars (process_client_commands client vs)) (byte_val id)
  = var_get vs (byte_val id).
Proof.
  intros N A. destruct (session_process client vs) as [S _].
  exact (session_frame _ _ _ _ _ S id N A).
Qed.

Lemma session_leaves_unnamed_witness :
  var_get (final_vars (process_client_commands (whole [x02; x01; xc8; x07; x02; x09])
                         vars))
    (byte_val x04)
  = var_get vars (byte_val x04).
Proof.
  apply (session_leaves_unnamed (whole [x02; x01; xc8; x07; x02; x09]) vars x04).
  - discriminate.
  - intros v H.
    apply (in_map (fun e => match e with
                            | OutCommandSet x04 _ => true
                            | _ => false
                            end)) in H.
    cbv beta iota in H. vm_compute in H.
    repeat (destruct H as [H|H]; [discriminate H|]). destruct H.
Defined.

(** ** Connections in sequence *)

(** Serving a sequence of connections composes: the connections accepted
    after a first batch are served from the table the first batch left,
    unless a connection of the first batch sent an [exit], in which case
    none of the later connections is served at all. *)
Theorem server_app (clients1 clients2 : list (list (byte * bool))) (vs : list byte) :
  server (clients1 ++ clients2) vs
  = match final_status (server clients1 vs) with
    | Exited => server clients1 vs
    | _ =>
        (final_status (server clients2 (final_vars (server clients1 vs))),
         final_vars (server clients2 (final_vars (server clients1 vs))),
         output (server clients1 vs)
           ++ output (server clients2 (final_vars (server clients1 vs))))
    end.
Proof.
  revert vs. induction clients1 as [|client clients1 IH]; intros vs.
  - cbn [app server]. unfold final_status, final_vars, output. cbn [fst snd app].
    now destruct (server clients2 vs) as [[st vs2] out2].
  - cbn [app server].
    destruct (process_client_commands client vs) as [[st vs1] out].
    destruct st; try reflexivity; rewrite IH;
      destruct (server clients1 vs1) as [[st1 vs2] out1];
      unfold final_status, final_vars, output; cbn [fst snd];
      destruct st1; cbn [fst snd]; try reflexivity;
      destruct (server clients2 vs2) as [[st2 vs3] out2]; cbn [fst snd];
      now rewrite app_assoc.
Qed.

(** ** Names in the snapshot *)

Lemma variable_name_default n : variable_name n true <> None.
Proof.
  unfold variable_name.
  repeat (match goal with |- context [if ?a =? ?b then _ else _] =>
            destruct (a =? b) end; [discriminate|]).
  discriminate.
Qed.

Lemma show_variables_loop_named vs n : forall i,
  Forall (fun e => match e with
                   | OutVariable j name v =>
                       i <= j < 256 /\ name = variable_name j true /\ v = var_get vs j
                   | _ => False
                   end) (show_variables_loop n vs i).
Proof.
  induction n as [|n IH]; intros i; cbn [show_variables_loop]; [constructor|].
  destruct (Z.ltb_spec i 256); [|constructor].
  apply Forall_app. split.
  - unfold show_variable.
    match goal with |- context [if ?c then _ else _] => destruct c end;
      repeat constructor; lia.
  - eapply Forall_impl; [apply IH|].
    intros [] ; try tauto. intros (R & ? & ?).
    repeat split; try assumption; lia.
Qed.

Lemma session_output_forall (P : event -> Prop) client vs st vs' out :
  (forall e, applied_command e = true -> P e) ->
  P OutCommandExit -> P SysUnlink ->
  (forall v, Forall P (server_interrupt v).2) ->
  session client vs st vs' out -> Forall P out.
Proof.
  intros Pc Pe Pu Pi.
  induction 1 as
    [ vs
    | cut client vs vs1 out st vs2 out2 Hi _ IH
    | cut client vs
    | cut1 name val cut2 client vs vs1 out st vs2 out2 Hi _ IH
    | cut1 name cut client vs vs1 out st vs2 out2 Hs Hi _ IH
    | cut1 vs vs1 out Hi
    | command cut client vs vs1 out st vs2 out2 Hc Hi _ IH ];
    try (match type of Hi with server_interrupt ?v = _ =>
           pose proof (Pi v) as F; rewrite Hi in F; cbn [snd] in F
         end);
    try (constructor; [apply Pc; reflexivity|]);
    try assumption;
    try (apply Forall_app; split; assumption).
  - constructor.
  - repeat constructor; assumption.
Qed.

(** Every line of every snapshot a session writes names its variable: the
    identifier lies in 0..255, the name passed to [printf] is never [NULL],
    and it is the name [variable_name] gives the identifier. *)
Theorem snapshot_lines_named (client : list (byte * bool)) (vs : list byte) (i : Z)
    (name : option string)
    (v : byte) :
  In (OutVariable i name v) (output (process_client_commands client vs)) ->
  0 <= i < 256 /\ name = variable_name i true /\ name <> None.
Proof.
  intros H. destruct (session_process client vs) as [S _].
  set (P := fun e => match e with
                     | OutVariable j nm _ =>
                         0 <= j < 256 /\ nm = variable_name j true /\ nm <> None
                     | _ => True
                     end).
  assert (F : Forall P (output (process_client_commands client vs))).
  2:{ rewrite Forall_forall in F. apply list_elem_of_In in H. exact (F _ H). }
  apply (fun a b c d => session_output_forall P _ _ _ _ _ a b c d S);
    try exact I.
  - now intros [].
  - intros w. rewrite server_interrupt_unfold. cbn [snd].
    constructor; [exact I|]. apply Forall_app. split.
    + unfold trip_breaker_based_on_voltage.
      match goal with |- context [if ?c then _ else _] => destruct c end;
        repeat constructor.
    + unfold show_variables. constructor; [exact I|].
      eapply Forall_impl; [apply (show_variables_loop_named _ 256 0)|].
      intros [] ; try tauto. intros (R & -> & _).
      split; [exact R|]. split; [reflexivity | apply variable_name_default].
Qed.

Lemma snapshot_lines_named_witness :
  Some ("var[9]"%string) = variable_name 9 true.
Proof.
  apply (snapshot_lines_named (whole [x02; x09; x01]) vars 9 (Some "var[9]"%string) x01).
  vm_compute. tauto.
Defined.

(** Distinct identifiers have distinct names, the synthesized ones
    included, so a line of the snapshot identifies its variable by name
    alone. *)
Theorem variable_names_distinct (i j : Z) :
  0 <= i < 256 -> 0 <= j < 256 -> i <> j ->
  variable_name i true <> variable_name j true.
Proof.
  intros Hi Hj D E. apply D.
  assert (C : forallb (fun a =>
                forallb (fun b =>
                  implb match variable_name a true, variable_name b true with
                        | Some x, Some y => String.eqb x y
                        | _, _ => false
                        end (a =? b))
                  (seqZ 0 256))
                (seqZ 0 256) = true) by (vm_compute; reflexivity).
  rewrite forallb_forall in C.
  assert (Ii : In i (seqZ 0 256)) by (apply list_elem_of_In, elem_of_seqZ; lia).
  assert (Ij : In j (seqZ 0 256)) by (apply list_elem_of_In, elem_of_seqZ; lia).
  specialize (C i Ii). rewrite forallb_forall in C. specialize (C j Ij).
  rewrite <- E in C.
  destruct (variable_name i true) as [x|] eqn:N;
    [|now apply variable_name_default in N].
  rewrite String.eqb_refl in C. cbn [implb] in C. now apply Z.eqb_eq.
Qed.

Lemma variable_names_distinct_witness :
  variable_name 1 true <> variable_name 11 true /\
  variable_name 25 true <> variable_name 250 true.
Proof.
  split; [apply (variable_names_distinct 1 11) | apply (variable_names_distinct 25 250)];
    lia.
Defined.

(** ** Limits set wide *)

Lemma show_variables_no_trip vs : ~ In OutBreakerTripped (show_variables vs).
Proof.
  unfold show_variables. intros [H|H]; [discriminate|].
  pose proof (show_variables_loop_named vs 256 0) as F.
  rewrite Forall_forall in F. apply list_elem_of_In, F in H. exact H.
Qed.

Lemma wide_limits_idle vs :
  var_get vs VAR_MIN_VOLTAGE = x00 -> var_get vs VAR_MAX_VOLTAGE = xff ->
  server_interrupt vs = (vs, OutServerInterrupt :: show_variables vs).
Proof.
  intros L H. apply server_interrupt_idle. right. rewrite L, H.
  pose proof (byte_val_range (var_get vs VAR_VOLTAGE)).
  change (byte_val x00) with 0. change (byte_val xff) with 255. lia.
Qed.

Lemma wide_limits_set vs name val :
  name <> x03 -> name <> x04 ->
  var_get vs VAR_MIN_VOLTAGE = x00 -> var_get vs VAR_MAX_VOLTAGE = xff ->
  var_get (var_set vs (byte_val name) val) VAR_MIN_VOLTAGE = x00 /\
  var_get (var_set vs (byte_val name) val) VAR_MAX_VOLTAGE = xff.
Proof.
  intros N3 N4 L H. split.
  - rewrite var_get_set_ne; [exact L|]. exact (byte_index_ne name x03 N3).
  - rewrite var_get_set_ne; [exact H|]. exact (byte_index_ne name x04 N4).
Qed.

Lemma session_wide_limits client vs st vs' out :
  session client vs st vs' out ->
  var_get vs VAR_MIN_VOLTAGE = x00 -> var_get vs VAR_MAX_VOLTAGE = xff ->
  (forall v, ~ In (OutCommandSet x03 v) out) ->
  (forall v, ~ In (OutCommandSet x04 v) out) ->
  ~ In OutBreakerTripped out /\
  var_get vs' VAR_MIN_VOLTAGE = x00 /\ var_get vs' VAR_MAX_VOLTAGE = xff.
Proof.
  induction 1 as
    [ vs
    | cut client vs vs1 out st vs2 out2 Hi _ IH
    | cut client vs
    | cut1 name val cut2 client vs vs1 out st vs2 out2 Hi _ IH
    | cut1 name cut client vs vs1 out st vs2 out2 Hs Hi _ IH
    | cut1 vs vs1 out Hi
    | command cut client vs vs1 out st vs2 out2 Hc Hi _ IH ];
    intros L H A3 A4.
  - repeat split; auto.
  - rewrite (wide_limits_idle vs L H) in Hi. injection Hi as <- <-.
    destruct IH as (T & L' & H'); auto.
    { intros v Hv. apply (A3 v). right. apply in_app_iff. now right. }
    { intros v Hv. apply (A4 v). right. apply in_app_iff. now right. }
    split; [|now split].
    intros [X|X]; [discriminate|]. apply in_app_iff in X as [[X|X]|X];
      [discriminate | now apply show_variables_no_trip in X | contradiction].
  - repeat split; auto. intros [X|[X|[]]]; discriminate.
  - assert (N3 : name <> x03) by (intros ->; apply (A3 val); now left).
    assert (N4 : name <> x04) by (intros ->; apply (A4 val); now left).
    destruct (wide_limits_set vs name val N3 N4 L H) as [L1 H1].
    rewrite (wide_limits_idle _ L1 H1) in Hi. injection Hi as <- <-.
    destruct IH as (T & L' & H'); auto.
    { intros v Hv. apply (A3 v). right. apply in_app_iff. now right. }
    { intros v Hv. apply (A4 v). right. apply in_app_iff. now right. }
    split; [|now split].
    intros [X|X]; [discriminate|]. apply in_app_iff in X as [[X|X]|X];
      [discriminate | now apply show_variables_no_trip in X | contradiction].
  - assert (N3 : name <> x03) by (intros ->; apply (A3 x00); now left).
    assert (N4 : name <> x04) by (intros ->; apply (A4 x00); now left).
    destruct (wide_limits_set vs name x00 N3 N4 L H) as [L1 H1].
    rewrite (wide_limits_idle _ L1 H1) in Hi. injection Hi as <- <-.
    destruct IH as (T & L' & H'); auto.
    { intros v Hv. apply (A3 v). right. apply in_app_iff. now right. }
    { intros v Hv. apply (A4 v). right. apply in_app_iff. now right. }
    split; [|now split].
    intros [X|X]; [discriminate|]. apply in_app_iff in X as [[X|X]|X];
      [discriminate | now apply show_variables_no_trip in X | contradiction].
  - destruct (wide_limits_set vs x00 x00 ltac:(discriminate) ltac:(discriminate) L H)
      as [L1 H1].
    change (byte_val x00) with 0 in L1, H1.
    rewrite (wide_limits_idle _ L1 H1) in Hi. injection Hi as <- <-.
    split; [|now split].
    intros [X|[X|X]]; [discriminate | discriminate |
                       now apply show_variables_no_trip in X].
  - rewrite (wide_limits_idle vs L H) in Hi. injection Hi as <- <-.
    destruct IH as (T & L' & H'); auto.
    { intros v Hv. apply (A3 v). right. apply in_app_iff. now right. }
    { intros v Hv. apply (A4 v). right. apply in_app_iff. now right. }
    split; [|now split].
    intros [X|X]; [discriminate|]. apply in_app_iff in X as [[X|X]|X];
      [discriminate | now apply show_variables_no_trip in X | contradiction].
Qed.

(** The limits are ordinary variables: once min_voltage is 0 and
    max_voltage is 255, no session that leaves those two alone ever trips
    the breaker, whatever voltages and other values it sets; the limits are
    still 0 and 255 when it ends. *)
Theorem wide_limits_never_trip (client : list (byte * bool)) (vs : list byte) :
  var_get vs VAR_MIN_VOLTAGE = x00 -> var_get vs VAR_MAX_VOLTAGE = xff ->
  (forall v, ~ In (OutCommandSet x03 v) (output (process_client_commands client vs))) ->
  (forall v, ~ In (OutCommandSet x04 v) (output (process_client_commands client vs))) ->
  ~ In OutBreakerTripped (output (process_client_commands client vs)) /\
  var_get (final_vars (process_client_commands client vs)) VAR_MIN_VOLTAGE = x00 /\
  var_get (final_vars (process_client_commands client vs)) VAR_MAX_VOLTAGE = xff.
Proof.
  destruct (session_process client vs) as [S _].
  exact (session_wide_limits _ _ _ _ _ S).
Qed.

Lemma wide_limits_never_trip_witness :
  ~ In OutBreakerTripped
      (output (process_client_commands (whole [x02; x01; x00; x02; x01; xff; x00])
                 (final_vars (process_client_commands
                                (whole [x02; x03; x00; x02; x04; xff]) vars)))).
Proof.
  apply (wide_limits_never_trip (whole [x02; x01; x00; x02; x01; xff; x00])
           (final_vars (process_client_commands
                          (whole [x02; x03; x00; x02; x04; xff]) vars))).
  - reflexivity.
  - reflexivity.
  - intros v H.
    apply (in_map (fun e => match e with
                            | OutCommandSet x03 _ => true
                            | _ => false
                            end)) in H.
    cbv beta iota in H. vm_compute in H.
    repeat (destruct H as [H|H]; [discriminate H|]). destruct H.
  - intros v H.
    apply (in_map (fun e => match e with
                            | OutCommandSet x04 _ => true
                            | _ => false
                            end)) in H.
    cbv beta iota in H. vm_compute in H.
    repeat (destruct H as [H|H]; [discriminate H|]). destruct H.
Defined.

(** * Properties of the client *)

Section ClientProperties.
Variable strtoul : string -> Z.

Lemma client_write (command : list byte) (p a : string) (rest : list string) :
  length command = 3%nat -> (length rest <= 2)%nat ->
  client strtoul true true command (p :: a :: rest)
  = ClientWrite
      (client_command strtoul a
         :: map (client_argument strtoul (client_command strtoul a)) rest).
Proof.
  intros Lc Lr.
  destruct command as [|g0 [|g1 [|g2 [|? ?]]]]; try discriminate Lc.
  destruct rest as [|b [|c [|? ?]]]; [reflexivity | reflexivity | reflexivity |].
  cbn [length] in Lr. lia.
Qed.

(** The bytes the client writes: one per argument after the program name,
    the first from [client_command], each further one from
    [client_argument], in order.  They do not depend on what the array
    [command] held on entry: no uninitialised byte is sent. *)
Theorem client_writes_arguments (command command' : list byte) (p a : string)
    (rest : list string) :
  length command = 3%nat -> length command' = 3%nat -> (length rest <= 2)%nat ->
  exists buf,
    client strtoul true true command (p :: a :: rest) = ClientWrite buf /\
    client strtoul true true command' (p :: a :: rest) = ClientWrite buf /\
    buf = client_command strtoul a
            :: map (client_argument strtoul (client_command strtoul a)) rest /\
    length buf = length (a :: rest).
Proof.
  intros Lc Lc' Lr. eexists. split; [now apply client_write|].
  split; [now apply client_write|]. split; [reflexivity|].
  cbn [length]. now rewrite length_map.
Qed.

(** The client's refusals and bounds: without a command it prints the
    usage and exits, with more than three command words it exits with
    "too many arguments", in both cases before anything is sent; when it
    does write, both the socket and the connection were obtained and the
    message has between one and three bytes. *)
Theorem client_bounds (socket_ok connect_ok : bool) (command : list byte)
    (argv : list string) :
  ((length argv < 2)%nat ->
   client strtoul socket_ok connect_ok command argv = ClientUsage) /\
  ((4 < length argv)%nat ->
   client strtoul socket_ok connect_ok command argv = ClientTooMany) /\
  (forall buf,
     length command = 3%nat ->
     client strtoul socket_ok connect_ok command argv = ClientWrite buf ->
     socket_ok = true /\ connect_ok = true /\
     length buf = (length argv - 1)%nat /\ (1 <= length buf <= 3)%nat).
Proof.
  split; [|split].
  - intros L. destruct argv as [|p [|a argv]]; [reflexivity | reflexivity |].
    cbn [length] in L. lia.
  - intros L. unfold client.
    destruct (Z.ltb_spec (Z.of_nat (length argv)) 2); [lia|].
    unfold MAX_BYTES_IN_COMMAND.
    destruct (Z.gtb_spec (Z.of_nat (length argv) - 1) 3); [reflexivity | lia].
  - intros buf Lc E.
    destruct argv as [|p [|a rest]]; [discriminate E | discriminate E |].
    destruct (decide (length rest <= 2)%nat) as [Lr|Lr].
    + destruct socket_ok, connect_ok;
        try (destruct rest as [|b [|c [|? ?]]]; [discriminate E ..|];
             cbn [length] in Lr; lia).
      rewrite (client_write command p a rest Lc Lr) in E.
      injection E as <-. cbn [length]. rewrite length_map. repeat split; lia.
    + exfalso. unfold client in E.
      destruct (Z.ltb_spec (Z.of_nat (length (p :: a :: rest))) 2);
        [discriminate E|].
      unfold MAX_BYTES_IN_COMMAND in E.
      destruct (Z.gtb_spec (Z.of_nat (length (p :: a :: rest)) - 1) 3);
        [discriminate E|].
      cbn [length] in *. lia.
Qed.

(** The names the client accepts for variables are the names the server
    prints for them: a name [variable_name] gives an identifier other
    than 0 is sent by the client as that identifier, in a [set] command. *)
Theorem client_names_match_server (i : Z) (w : string) :
  variable_name i false = Some w -> i <> VAR_UNUSED ->
  client_argument strtoul (u8 CMD_SET_VARIABLE) w = u8 i /\
  In (w, i) client_variable_names.
Proof.
  unfold variable_name, VAR_UNUSED, VAR_VOLTAGE, VAR_AMPERAGE, VAR_MIN_VOLTAGE,
    VAR_MAX_VOLTAGE, VAR_CIRCUIT_BREAKER.
  intros E N.
  repeat (match type of E with context [if ?a =? ?b then _ else _] =>
            destruct (Z.eqb_spec a b) as [->|?]
          end;
          [first [ contradiction
                 | injection E as <-; split; [reflexivity | cbn; tauto] ]|]).
  discriminate E.
Qed.

(** A command given by names is sent as the same bytes as the command
    given by numbers: ["set"] and the name of a variable can be replaced
    by any words that are not names and that [strtoul] reads as the
    command code 2 and the identifier of the variable. *)
Theorem client_names_as_numbers (command : list byte) (p w sc sv : string)
    (n : Z) (rest : list string) :
  length command = 3%nat -> (length rest <= 1)%nat ->
  In (w, n) client_variable_names ->
  ~ In sc client_command_names ->
  ~ In sv (map fst client_variable_names) ->
  u8 (strtoul sc) = u8 CMD_SET_VARIABLE ->
  u8 (strtoul sv) = u8 n ->
  client strtoul true true command (p :: "set"%string :: w :: rest)
  = client strtoul true true command (p :: sc :: sv :: rest) /\
  client strtoul true true command (p :: "set"%string :: w :: rest)
  = ClientWrite (u8 CMD_SET_VARIABLE :: u8 n
                   :: map (client_argument strtoul (u8 CMD_SET_VARIABLE)) rest).
Proof.
  intros Lc Lr Hw Hsc Hsv Ec Ev.
  rewrite !client_write by (cbn [length]; lia).
  assert (C : client_command strtoul sc = u8 CMD_SET_VARIABLE).
  { unfold client_command.
    destruct (String.eqb_spec sc "nop") as [->|_]; [exfalso; apply Hsc; cbn; tauto|].
    destruct (String.eqb_spec sc "exit") as [->|_]; [exfalso; apply Hsc; cbn; tauto|].
    destruct (String.eqb_spec sc "set") as [->|_]; [reflexivity | exact Ec]. }
  assert (V : client_argument strtoul (u8 CMD_SET_VARIABLE) sv = u8 n).
  { unfold client_argument. change (byte_val (u8 CMD_SET_VARIABLE) =? CMD_SET_VARIABLE) with true.
    cbv iota.
    repeat (match goal with |- context [String.eqb sv ?s] =>
              destruct (String.eqb_spec sv s) as [->|_];
                [exfalso; apply Hsv; cbn; tauto|]
            end).
    exact Ev. }
  assert (W : client_argument strtoul (u8 CMD_SET_VARIABLE) w = u8 n).
  { cbn in Hw. repeat (destruct Hw as [Hw|Hw]; [injection Hw as <- <-; reflexivity|]).
    destruct Hw. }
  change (client_command strtoul "set") with (u8 CMD_SET_VARIABLE).
  rewrite C. cbn [map]. rewrite V, W. split; reflexivity.
Qed.

(** From the command line to the table, the client's single [write]
    reaching the server in one piece: [set A B] makes the server assign
    to the variable named or numbered [A] the value [B], a variable name
    in the place of [B] standing for its identifier; [set A] assigns 0
    to [A], and [set] alone assigns 0 to variable 0.  The handler runs
    once and the session ends. *)
Theorem client_set_reaches_table (command : list byte) (p a b : string)
    (vs : list byte) :
  length command = 3%nat ->
  (exists buf,
     client strtoul true true command [p; "set"%string; a; b] = ClientWrite buf /\
     process_client_commands (whole buf) vs
     = (Returned,
        (server_interrupt
           (var_set vs (byte_val (client_argument strtoul x02 a))
              (client_argument strtoul x02 b))).1,
        OutCommandSet (client_argument strtoul x02 a) (client_argument strtoul x02 b)
          :: (server_interrupt
                (var_set vs (byte_val (client_argument strtoul x02 a))
                   (client_argument strtoul x02 b))).2)) /\
  (exists buf,
     client strtoul true true command [p; "set"%string; a] = ClientWrite buf /\
     process_client_commands (whole buf) vs
     = (Returned,
        (server_interrupt
           (var_set vs (byte_val (client_argument strtoul x02 a)) x00)).1,
        OutCommandSet (client_argument strtoul x02 a) x00
          :: (server_interrupt
                (var_set vs (byte_val (client_argument strtoul x02 a)) x00)).2)) /\
  (exists buf,
     client strtoul true true command [p; "set"%string] = ClientWrite buf /\
     process_client_commands (whole buf) vs
     = (Returned,
        (server_interrupt (var_set vs VAR_UNUSED x00)).1,
        OutCommandSet x00 x00 :: (server_interrupt (var_set vs VAR_UNUSED x00)).2)).
Proof.
  intros Lc. split; [|split]; eexists;
    (split; [apply client_write; [exact Lc | cbn [length]; lia]|]);
    change (client_command strtoul "set") with x02; cbn [map]; unfold whole;
    cbn [map].
  - rewrite process_cons, switch_set, process_nil. cbn [app fst snd].
    now rewrite app_nil_r.
  - rewrite process_cons, switch_set_short1, process_nil. cbn [app fst snd].
    now rewrite app_nil_r.
  - rewrite process_cons, switch_set_short0, process_nil. cbn [app fst snd].
    now rewrite app_nil_r.
Qed.
End ClientProperties.

Lemma client_writes_arguments_witness :
  client strtoul_decimal true true [xaa; xbb; xcc]
    ["prog"; "set"; "7"; "voltage"]%string
  = ClientWrite [x02; x07; x01] /\
  client strtoul_decimal true true [x00; x00; x00]
    ["prog"; "set"; "7"; "voltage"]%string
  = ClientWrite [x02; x07; x01].
Proof.
  destruct (client_writes_arguments strtoul_decimal [xaa; xbb; xcc] [x00; x00; x00]
              "prog" "set" ["7"; "voltage"]%string)
    as (buf & E1 & E2 & -> & _); [reflexivity | reflexivity | cbn [length]; lia |].
  split; [exact E1 | exact E2].
Defined.

Lemma client_bounds_witness :
  client strtoul_decimal true true [xaa; xbb; xcc] ["prog"]%string = ClientUsage /\
  client strtoul_decimal true true [xaa; xbb; xcc]
    ["prog"; "set"; "1"; "2"; "3"]%string = ClientTooMany /\
  length [x00; x2c] = 2%nat.
Proof.
  destruct (client_bounds strtoul_decimal true true [xaa; xbb; xcc] ["prog"]%string)
    as (U & _ & _).
  destruct (client_bounds strtoul_decimal true true [xaa; xbb; xcc]
              ["prog"; "set"; "1"; "2"; "3"]%string) as (_ & T & _).
  destruct (client_bounds strtoul_decimal true true [xaa; xbb; xcc]
              ["prog"; "nop"; "300"]%string) as (_ & _ & B).
  split; [apply U; cbn [length]; lia|].
  split; [apply T; cbn [length]; lia|].
  apply (B [x00; x2c]); reflexivity.
Defined.

Lemma client_names_match_server_witness :
  client_argument strtoul_decimal (u8 CMD_SET_VARIABLE) "min_voltage" = u8 3.
Proof.
  apply (client_names_match_server strtoul_decimal 3 "min_voltage");
    [reflexivity | discriminate].
Defined.

Lemma client_names_as_numbers_witness :
  client strtoul_decimal true true [xaa; xbb; xcc]
    ["prog"; "set"; "circuit_breaker"; "0"]%string
  = client strtoul_decimal true true [xaa; xbb; xcc] ["prog"; "2"; "5"; "0"]%string.
Proof.
  apply (client_names_as_numbers strtoul_decimal [xaa; xbb; xcc]
           "prog" "circuit_breaker" "2" "5" 5 ["0"%string]).
  - reflexivity.
  - cbn [length]. lia.
  - cbn. tauto.
  - cbn. intros [H|[H|[H|[]]]]; discriminate H.
  - cbn. intros [H|[H|[H|[H|[H|[]]]]]]; discriminate H.
  - reflexivity.
  - reflexivity.
Defined.

Lemma client_set_reaches_table_witness :
  exists buf,
    client strtoul_decimal true true [xaa; xbb; xcc]
      ["prog"; "set"; "voltage"; "100"]%string = ClientWrite buf /\
    var_get (final_vars (process_client_commands (whole buf) vars)) VAR_VOLTAGE = u8 100.
Proof.
  destruct (client_set_reaches_table strtoul_decimal [xaa; xbb; xcc]
              "prog" "voltage" "100" vars eq_refl) as ((buf & E & P) & _).
  exists buf. split; [exact E|]. rewrite P. vm_compute. reflexivity.
Defined.
